(** * Verification of the hit-chance model and the combat-log pipeline

    Shallow embedding of [src/src/calculator.js] and [src/src/logParser.js].

    - [Calculator]: the numeric model read over exact reals.  A number is a
      finite real, one of the two infinities, or NaN, and finite arithmetic
      is exact (no rounding, no overflow, no signed zero).  It carries the
      algebraic laws of the model: the piecewise contract of the inverse
      and the round trip through the forward model.
    - [Calculator64]: the same functions on binary64 numbers, with the
      rounding, overflow, underflow and NaN of the numbers the code
      computes with.  It carries what is said of the value returned on
      every input.
    - [Regex]: a backtracking matcher for the fragment of JavaScript regular
      expressions the parser uses, over strings of UTF-16 code units.
    - [LogParser]: the line parser, the statistics reducer and the search
      for recent log files.
    - [Server]: the handlers of [src/server.js] that call the two
      modules. *)

From Stdlib Require Import Reals Lra Lia List ZArith NArith QArith Bool String Ascii
  Permutation.
From Stdlib Require Floats.
Import ListNotations.

(** A decimal literal in [float_scope] denotes the nearest double, as it
    does in JavaScript. *)
Set Warnings "-inexact-float".

(* ================================================================== *)
(** * calculator.js over exact reals *)
(* ================================================================== *)

Module Calculator.
Local Open Scope R_scope.

(** ** Numbers as extended reals

    The operations below are the exact ones: a product or quotient of
    finite reals is the real product or quotient.  The double-precision
    operations of the running code are those of [Calculator64]. *)

Inductive number : Type :=
| Fin (x : R)
| PInf
| NInf
| NaN.

(** [a <= b]; every comparison with NaN is false. *)
Definition leb (a b : number) : bool :=
  match a, b with
  | NaN, _ => false
  | _, NaN => false
  | NInf, _ => true
  | _, PInf => true
  | Fin x, Fin y => if Rle_dec x y then true else false
  | _, _ => false
  end.

(** [a > b]. *)
Definition gtb (a b : number) : bool :=
  match a, b with
  | NaN, _ => false
  | _, NaN => false
  | PInf, PInf => false
  | PInf, _ => true
  | NInf, _ => false
  | Fin _, PInf => false
  | Fin _, NInf => true
  | Fin x, Fin y => if Rlt_dec y x then true else false
  end.

Definition neg (a : number) : number :=
  match a with
  | Fin x => Fin (- x)
  | PInf => NInf
  | NInf => PInf
  | NaN => NaN
  end.

Definition add (a b : number) : number :=
  match a, b with
  | NaN, _ => NaN
  | _, NaN => NaN
  | Fin x, Fin y => Fin (x + y)
  | PInf, NInf => NaN
  | NInf, PInf => NaN
  | PInf, _ => PInf
  | _, PInf => PInf
  | NInf, _ => NInf
  | _, NInf => NInf
  end.

Definition sub (a b : number) : number := add a (neg b).

(** An infinity of sign [pos] scaled by the sign of the finite [x];
    infinity times zero is NaN. *)
Definition inf_signed (pos : bool) (x : R) : number :=
  if Rlt_dec 0 x then (if pos then PInf else NInf)
  else if Rlt_dec x 0 then (if pos then NInf else PInf)
  else NaN.

Definition mul (a b : number) : number :=
  match a, b with
  | NaN, _ => NaN
  | _, NaN => NaN
  | Fin x, Fin y => Fin (x * y)
  | PInf, Fin y => inf_signed true y
  | NInf, Fin y => inf_signed false y
  | Fin x, PInf => inf_signed true x
  | Fin x, NInf => inf_signed false x
  | PInf, PInf => PInf
  | NInf, NInf => PInf
  | PInf, NInf => NInf
  | NInf, PInf => NInf
  end.

(** Division; a zero divisor is read as +0. *)
Definition div (a b : number) : number :=
  match a, b with
  | NaN, _ => NaN
  | _, NaN => NaN
  | Fin x, Fin y =>
      if Req_dec_T y 0 then inf_signed true x else Fin (x / y)
  | Fin _, PInf => Fin 0
  | Fin _, NInf => Fin 0
  | PInf, Fin y => if Rlt_dec y 0 then NInf else PInf
  | NInf, Fin y => if Rlt_dec y 0 then PInf else NInf
  | _, _ => NaN
  end.

(** [Math.max] and [Math.min] of two arguments. *)
Definition Math_max (a b : number) : number :=
  match a, b with
  | NaN, _ => NaN
  | _, NaN => NaN
  | _, _ => if leb a b then b else a
  end.

Definition Math_min (a b : number) : number :=
  match a, b with
  | NaN, _ => NaN
  | _, NaN => NaN
  | _, _ => if leb a b then a else b
  end.

(** [Math.pow(0.5, e)], the only call of [Math.pow] in the source. *)
Definition Math_pow_half (e : number) : number :=
  match e with
  | Fin x => Fin (Rpower (1 / 2) x)
  | PInf => Fin 0
  | NInf => PInf
  | NaN => NaN
  end.

Definition Math_log (a : number) : number :=
  match a with
  | Fin x =>
      if Rlt_dec x 0 then NaN
      else if Req_dec_T x 0 then NInf
      else Fin (ln x)
  | PInf => PInf
  | NInf => NaN
  | NaN => NaN
  end.

Definition Math_sqrt (a : number) : number :=
  match a with
  | Fin x => if Rlt_dec x 0 then NaN else Fin (sqrt x)
  | PInf => PInf
  | NInf => NaN
  | NaN => NaN
  end.

(** ** The model *)

Definition SIGNATURE_RESOLUTION : number := Fin 40000.

Definition calculateAngularVelocity (transversal distance : number) : number :=
  if leb distance (Fin 0) then PInf
  else div transversal distance.

Definition calculateTrackingComponent
    (angularVelocity trackingSpeed signatureRadius : number) : number :=
  if leb trackingSpeed (Fin 0) || leb signatureRadius (Fin 0) then PInf
  else
    let ratio := div (mul angularVelocity SIGNATURE_RESOLUTION)
                     (mul trackingSpeed signatureRadius) in
    mul ratio ratio.

Definition calculateRangeComponent
    (distance optimalRange falloff : number) : number :=
  if leb falloff (Fin 0) then
    (if gtb distance optimalRange then PInf else Fin 0)
  else
    let excess := Math_max (Fin 0) (sub distance optimalRange) in
    let ratio := div excess falloff in
    mul ratio ratio.

Record HitParams : Type := mkHitParams {
  transversal : number;
  distance : number;
  trackingSpeed : number;
  signatureRadius : number;
  optimalRange : number;
  falloff : number
}.

Record HitResult : Type := mkHitResult {
  hitChance : number;
  hitChancePercent : number;
  angularVelocity : number;
  angularVelocityMrad : number;
  trackingComponent : number;
  rangeComponent : number;
  isInOptimal : bool;
  isInFalloff : bool;
  expectedDamageModifier : number
}.

Definition calculateHitChance (p : HitParams) : HitResult :=
  let angularVelocity :=
    calculateAngularVelocity (transversal p) (distance p) in
  let trackingComponent :=
    calculateTrackingComponent angularVelocity (trackingSpeed p)
                               (signatureRadius p) in
  let rangeComponent :=
    calculateRangeComponent (distance p) (optimalRange p) (falloff p) in
  let exponent := add trackingComponent rangeComponent in
  let hitChance := Math_pow_half exponent in
  let expectedDamageModifier :=
    mul hitChance (add (mul (Fin 0.97) (Fin 0.5)) (mul (Fin 0.03) (Fin 3))) in
  {| hitChance := Math_min (Fin 1) (Math_max (Fin 0) hitChance);
     hitChancePercent :=
       Math_min (Fin 100) (Math_max (Fin 0) (mul hitChance (Fin 100)));
     angularVelocity := angularVelocity;
     angularVelocityMrad := mul angularVelocity (Fin 1000);
     trackingComponent := trackingComponent;
     rangeComponent := rangeComponent;
     isInOptimal := leb (distance p) (optimalRange p);
     isInFalloff := leb (distance p) (add (optimalRange p) (falloff p));
     expectedDamageModifier := expectedDamageModifier |}.

Record MaxTransversalParams : Type := mkMaxTransversalParams {
  targetHitChance : number;
  mt_distance : number;
  mt_trackingSpeed : number;
  mt_signatureRadius : number;
  mt_optimalRange : number;
  mt_falloff : number
}.

Definition calculateMaxTransversal (p : MaxTransversalParams) : number :=
  if leb (targetHitChance p) (Fin 0) || gtb (targetHitChance p) (Fin 1)
  then Fin 0
  else
    let rangeComponent :=
      calculateRangeComponent (mt_distance p) (mt_optimalRange p)
                              (mt_falloff p) in
    let totalExponent :=
      div (Math_log (targetHitChance p)) (Math_log (Fin 0.5)) in
    let trackingExponent := sub totalExponent rangeComponent in
    if leb trackingExponent (Fin 0) then PInf
    else
      let trackingRatio := Math_sqrt trackingExponent in
      let angularVelocity :=
        div (mul (mul trackingRatio (mt_trackingSpeed p))
                 (mt_signatureRadius p))
            SIGNATURE_RESOLUTION in
      mul angularVelocity (mt_distance p).

(** Parameter sets whose six entries are finite reals. *)
Definition realHit (t d ts sr o f : R) : HitParams :=
  mkHitParams (Fin t) (Fin d) (Fin ts) (Fin sr) (Fin o) (Fin f).

Definition realMax (h d ts sr o f : R) : MaxTransversalParams :=
  mkMaxTransversalParams (Fin h) (Fin d) (Fin ts) (Fin sr) (Fin o) (Fin f).

(** A number that is a nonnegative real or positive infinity. *)
Definition nonneg (a : number) : Prop :=
  match a with
  | Fin x => 0 <= x
  | PInf => True
  | _ => False
  end.



Definition reversed : MaxTransversalParams := realMax (1 / 2) 1 (-1) 1 10 1.

End Calculator.

(* ================================================================== *)
(** * calculator.js on binary64 numbers *)
(* ================================================================== *)

(** The same functions on IEEE 754 double-precision numbers, the numbers
    JavaScript computes with: products overflow to an infinity, underflow
    to a zero, and [0 / 0], [Infinity / Infinity] and [Infinity * 0] are
    NaN.  Comparisons, [+], [-], [*] and [/] are the operations of the
    standard, correctly rounded, and [Math.sqrt] is its square root, as
    the engines implement it.  [Math.log] and [Math.pow] are fixed by
    ECMA-262 on their special arguments only and implementation
    approximated elsewhere, so the model takes those two approximations as
    a parameter. *)
Module Calculator64.
Import PrimFloat SpecFloat.
Local Open Scope float_scope.

(** The implementation-approximated part of [Math.log] and of
    [Math.pow(0.5, _)]. *)
Record Libm : Type := mkLibm {
  ln_approx : float -> float;
  pow_half_approx : float -> float
}.

(** [Math.max] and [Math.min] of two arguments: NaN if either is NaN, and
    [+0] counts as larger than [-0]. *)
Definition Math_max (a b : float) : float :=
  if is_nan a || is_nan b then nan
  else if a <? b then b
  else if b <? a then a
  else match classify a with
       | FloatClass.NZero => b
       | _ => a
       end.

Definition Math_min (a b : float) : float :=
  if is_nan a || is_nan b then nan
  else if a <? b then a
  else if b <? a then b
  else match classify a with
       | FloatClass.PZero => b
       | _ => a
       end.

(** [Math.log]: NaN below zero, [-Infinity] at either zero, [+0] at 1,
    [+Infinity] at [+Infinity]. *)
Definition Math_log (m : Libm) (x : float) : float :=
  if is_nan x then nan
  else if x <? 0 then nan
  else if x =? 0 then neg_infinity
  else if x =? 1 then 0
  else if x =? infinity then infinity
  else ln_approx m x.

(** [Math.pow(0.5, e)]: NaN at NaN, 1 at either zero, [+0] at
    [+Infinity] and [+Infinity] at [-Infinity], the base being less than 1
    in absolute value. *)
Definition Math_pow_half (m : Libm) (e : float) : float :=
  if is_nan e then nan
  else if e =? 0 then 1
  else if e =? infinity then 0
  else if e =? neg_infinity then infinity
  else pow_half_approx m e.

Definition Math_sqrt (x : float) : float := sqrt x.

Definition SIGNATURE_RESOLUTION : float := 40000.

Definition calculateAngularVelocity (transversal distance : float) : float :=
  if distance <=? 0 then infinity
  else transversal / distance.

Definition calculateTrackingComponent
    (angularVelocity trackingSpeed signatureRadius : float) : float :=
  if (trackingSpeed <=? 0) || (signatureRadius <=? 0) then infinity
  else
    let ratio := (angularVelocity * SIGNATURE_RESOLUTION)
                 / (trackingSpeed * signatureRadius) in
    ratio * ratio.

Definition calculateRangeComponent
    (distance optimalRange falloff : float) : float :=
  if falloff <=? 0 then
    (if optimalRange <? distance then infinity else 0)
  else
    let excess := Math_max 0 (distance - optimalRange) in
    let ratio := excess / falloff in
    ratio * ratio.

Record HitParams : Type := mkHitParams {
  transversal : float;
  distance : float;
  trackingSpeed : float;
  signatureRadius : float;
  optimalRange : float;
  falloff : float
}.

Record HitResult : Type := mkHitResult {
  hitChance : float;
  hitChancePercent : float;
  angularVelocity : float;
  angularVelocityMrad : float;
  trackingComponent : float;
  rangeComponent : float;
  isInOptimal : bool;
  isInFalloff : bool;
  expectedDamageModifier : float
}.

Definition calculateHitChance (m : Libm) (p : HitParams) : HitResult :=
  let angularVelocity :=
    calculateAngularVelocity (transversal p) (distance p) in
  let trackingComponent :=
    calculateTrackingComponent angularVelocity (trackingSpeed p)
                               (signatureRadius p) in
  let rangeComponent :=
    calculateRangeComponent (distance p) (optimalRange p) (falloff p) in
  let exponent := trackingComponent + rangeComponent in
  let hitChance := Math_pow_half m exponent in
  let expectedDamageModifier := hitChance * (0.97 * 0.5 + 0.03 * 3) in
  {| hitChance := Math_min 1 (Math_max 0 hitChance);
     hitChancePercent := Math_min 100 (Math_max 0 (hitChance * 100));
     angularVelocity := angularVelocity;
     angularVelocityMrad := angularVelocity * 1000;
     trackingComponent := trackingComponent;
     rangeComponent := rangeComponent;
     isInOptimal := distance p <=? optimalRange p;
     isInFalloff := distance p <=? optimalRange p + falloff p;
     expectedDamageModifier := expectedDamageModifier |}.

Record MaxTransversalParams : Type := mkMaxTransversalParams {
  targetHitChance : float;
  mt_distance : float;
  mt_trackingSpeed : float;
  mt_signatureRadius : float;
  mt_optimalRange : float;
  mt_falloff : float
}.

Definition calculateMaxTransversal (m : Libm) (p : MaxTransversalParams)
  : float :=
  if (targetHitChance p <=? 0) || (1 <? targetHitChance p) then 0
  else
    let rangeComponent :=
      calculateRangeComponent (mt_distance p) (mt_optimalRange p)
                              (mt_falloff p) in
    let totalExponent := Math_log m (targetHitChance p) / Math_log m 0.5 in
    let trackingExponent := totalExponent - rangeComponent in
    if trackingExponent <=? 0 then infinity
    else
      let trackingRatio := Math_sqrt trackingExponent in
      let angularVelocity :=
        (trackingRatio * mt_trackingSpeed p * mt_signatureRadius p)
        / SIGNATURE_RESOLUTION in
      angularVelocity * mt_distance p.

(** [x] is not below zero: [x >= 0], or [x] is NaN. *)
Definition not_negative (x : float) : bool := negb (x <? 0).

(** Not negative, on the specification side: NaN, a zero, or a positive
    number. *)
Definition SFnn (s : spec_float) : Prop :=
  match s with
  | S754_nan => True
  | S754_zero _ => True
  | S754_infinity b => b = false
  | S754_finite b _ _ => b = false
  end.

(** The sign of a rounded result. *)
Definition SFsigned (s : bool) (r : spec_float) : Prop :=
  match r with
  | S754_nan => True
  | S754_zero b => b = s
  | S754_infinity b => b = s
  | S754_finite b _ _ => b = s
  end.

(** An approximation for the examples below.  They call it at
    [Math.log(0.5)] only, where it is right; none of them reaches the
    approximated part of [Math.pow]. *)
Definition libm_sample : Libm :=
  mkLibm (fun _ => -0.6931471805599453) (fun _ => 0.5).

(** [Math.pow(0.5, x)] lies in [[0,1]] for every [x >= 0]. *)
Definition faithful_pow (m : Libm) : Prop :=
  forall x, (0 <=? x) = true ->
    (0 <=? pow_half_approx m x) = true /\ (pow_half_approx m x <=? 1) = true.

(** Fixtures.  A stationary target inside optimal range; a product of
    tracking speed and signature radius that underflows to zero, under a
    zero transversal; one that overflows, at distance zero; a negative
    tracking speed. *)
Definition stationary : HitParams :=
  {| transversal := 0; distance := 1000; trackingSpeed := 0.05;
     signatureRadius := 125; optimalRange := 10000; falloff := 5000 |}.

Definition underflowing : HitParams :=
  {| transversal := 0; distance := 1; trackingSpeed := 1e-200;
     signatureRadius := 1e-200; optimalRange := 10; falloff := 1 |}.

Definition orbiting : MaxTransversalParams :=
  {| targetHitChance := 0.5; mt_distance := 1000; mt_trackingSpeed := 0.05;
     mt_signatureRadius := 125; mt_optimalRange := 10000;
     mt_falloff := 5000 |}.

Definition overflowing : MaxTransversalParams :=
  {| targetHitChance := 0.5; mt_distance := 0; mt_trackingSpeed := 1e200;
     mt_signatureRadius := 1e200; mt_optimalRange := 10; mt_falloff := 1 |}.

Definition backwards : MaxTransversalParams :=
  {| targetHitChance := 0.5; mt_distance := 1; mt_trackingSpeed := -1;
     mt_signatureRadius := 1; mt_optimalRange := 10; mt_falloff := 1 |}.

End Calculator64.

(* ================================================================== *)
(** * Regular expressions of logParser.js *)
(* ================================================================== *)

Module Regex.
Local Open Scope N_scope.

(** A JavaScript string is a sequence of UTF-16 code units. *)
Definition char : Type := N.
Definition jsstring : Type := list char.

Definition chr (a : ascii) : char := N_of_ascii a.
Definition str (s : string) : jsstring := map N_of_ascii (list_ascii_of_string s).

Fixpoint str_eqb (a b : jsstring) : bool :=
  match a, b with
  | [], [] => true
  | x :: a', y :: b' => (x =? y) && str_eqb a' b'
  | _, _ => false
  end.

(** ** Character sets *)

Definition cset : Type := char -> bool.

Definition in_range (lo hi : char) : cset :=
  fun x => (lo <=? x) && (x <=? hi).

Definition only (a : ascii) : cset := fun x => x =? chr a.
Definition except (a : ascii) : cset := fun x => negb (x =? chr a).

(** [\d] *)
Definition digit : cset := in_range 48 57.

(** [\w] without the unicode flag: [A-Za-z0-9_]. *)
Definition word : cset :=
  fun x => in_range 65 90 x || in_range 97 122 x || digit x || (x =? 95).

(** [\s]: WhiteSpace and LineTerminator code units. *)
Definition space : cset :=
  fun x => in_range 9 13 x || (x =? 32) || (x =? 160) || (x =? 5760)
           || in_range 8192 8202 x || (x =? 8232) || (x =? 8233)
           || (x =? 8239) || (x =? 8287) || (x =? 12288) || (x =? 65279).

(** [.]: everything but a line terminator. *)
Definition dot : cset :=
  fun x => negb ((x =? 10) || (x =? 13) || (x =? 8232) || (x =? 8233)).

(** The class [[\d.:\s]]. *)
Definition stamp_char : cset :=
  fun x => digit x || (x =? chr ".") || (x =? chr ":") || space x.

(** Case folding of the [i] flag.  Every literal of the patterns below is
    ASCII, and a code unit from 128 on never folds to an ASCII one, so only
    the folding of ASCII letters is observable. *)
Definition canonicalize (x : char) : char :=
  if in_range 97 122 x then x - 32 else x.

Definition is_i (a : ascii) : cset :=
  fun x => canonicalize x =? canonicalize (chr a).

(** ** Patterns

    Quantifiers occur in the source only on single-character atoms, so [Rep]
    carries a character set. *)

Inductive re : Type :=
| Eps
| Chr (p : cset)
| Cat (r1 r2 : re)
| Alt (r1 r2 : re)
| Rep (greedy : bool) (lo : nat) (hi : option nat) (p : cset)
| Grp (i : nat) (r : re).

Definition seq (rs : list re) : re := fold_right Cat Eps rs.
Definition alts (r : re) (rs : list re) : re := fold_left Alt rs r.
Definition lit (s : string) : re :=
  seq (map (fun a => Chr (only a)) (list_ascii_of_string s)).
Definition lit_i (s : string) : re :=
  seq (map (fun a => Chr (is_i a)) (list_ascii_of_string s)).
Definition star (p : cset) : re := Rep true 0 None p.
Definition plus (p : cset) : re := Rep true 1 None p.
Definition lazy_star (p : cset) : re := Rep false 0 None p.
Definition exactly (n : nat) (p : cset) : re := Rep true n (Some n) p.

(** ** Backtracking matcher *)

(** Captures: the most recent binding of a group comes first. *)
Definition captures : Type := list (nat * jsstring).

Fixpoint capture (c : captures) (i : nat) : option jsstring :=
  match c with
  | [] => None
  | (j, s) :: c' => if Nat.eqb i j then Some s else capture c' i
  end.

(** The text consumed between the input [s] and its suffix [s']. *)
Definition consumed (s s' : jsstring) : jsstring :=
  firstn (List.length s - List.length s') s.

Section Matcher.
Variable A : Type.

Definition orElse (a : option A) (b : unit -> option A) : option A :=
  match a with
  | Some x => Some x
  | None => b tt
  end.

Definition stop (lo : nat) (s : jsstring) (k : jsstring -> option A)
  : option A :=
  match lo with
  | O => k s
  | S _ => None
  end.

Definition may_repeat (hi : option nat) : bool :=
  match hi with
  | Some O => false
  | _ => true
  end.

Fixpoint rep (greedy : bool) (lo : nat) (hi : option nat) (p : cset)
    (s : jsstring) (k : jsstring -> option A) {struct s} : option A :=
  match s with
  | [] => stop lo s k
  | x :: s' =>
      if may_repeat hi && p x then
        if greedy then
          orElse (rep greedy (pred lo) (option_map pred hi) p s' k)
                 (fun _ => stop lo s k)
        else
          orElse (stop lo s k)
                 (fun _ => rep greedy (pred lo) (option_map pred hi) p s' k)
      else stop lo s k
  end.

Fixpoint rmatch (r : re) (s : jsstring) (c : captures)
    (k : jsstring -> captures -> option A) {struct r} : option A :=
  match r with
  | Eps => k s c
  | Chr p =>
      match s with
      | x :: s' => if p x then k s' c else None
      | [] => None
      end
  | Cat r1 r2 => rmatch r1 s c (fun s' c' => rmatch r2 s' c' k)
  | Alt r1 r2 => orElse (rmatch r1 s c k) (fun _ => rmatch r2 s c k)
  | Rep greedy lo hi p => rep greedy lo hi p s (fun s' => k s' c)
  | Grp i r1 =>
      rmatch r1 s c (fun s' c' => k s' ((i, consumed s s') :: c'))
  end.
End Matcher.

Arguments orElse {A} a b.
Arguments stop {A} lo s k.
Arguments rep {A} greedy lo hi p s k.
Arguments rmatch {A} r s c k.

(** A match anchored at the head of [s]: the rest of the input and the
    captures. *)
Definition match_here (r : re) (s : jsstring) : option (jsstring * captures) :=
  rmatch r s [] (fun s' c => Some (s', c)).

(** [RegExp.prototype.exec] without the [g] flag: the leftmost start index
    at which the pattern matches. *)
Fixpoint exec (r : re) (s : jsstring) : option captures :=
  match match_here r s with
  | Some (_, c) => Some c
  | None =>
      match s with
      | [] => None
      | _ :: s' => exec r s'
      end
  end.

(** Group [i] of a match.  The empty string stands for a group that did not
    take part ([undefined] in the source, equally falsy); the source tests
    the one group that may be absent before use, and [binds] below tells
    which groups are present in every match. *)
Definition group (m : captures) (i : nat) : jsstring :=
  match capture m i with
  | Some s => s
  | None => []
  end.

(** [s.replace(r, '')] for a [g]-flagged pattern: every leftmost match is
    deleted and scanning resumes behind it.  [skip] counts the characters of
    the current match still to be dropped; an empty match deletes nothing. *)
Fixpoint delete_from (r : re) (s : jsstring) (skip : nat) : jsstring :=
  match s with
  | [] => []
  | x :: s' =>
      match skip with
      | S n => delete_from r s' n
      | O =>
          match match_here r s with
          | Some (rest, _) =>
              match (List.length s - List.length rest)%nat with
              | O => x :: delete_from r s' 0
              | S n => delete_from r s' n
              end
          | None => x :: delete_from r s' 0
          end
      end
  end.

Definition delete_all (r : re) (s : jsstring) : jsstring := delete_from r s 0.

(** [String.prototype.trim]. *)
Fixpoint trim_start (s : jsstring) : jsstring :=
  match s with
  | x :: s' => if space x then trim_start s' else s
  | [] => []
  end.

Definition trim (s : jsstring) : jsstring :=
  rev (trim_start (rev (trim_start s))).

(** [String.prototype.toLowerCase] on ASCII letters; the one call site
    applies it to text matched against ASCII keywords. *)
Definition toLowerCase (s : jsstring) : jsstring :=
  map (fun x => if in_range 65 90 x then x + 32 else x) s.

(** [String.prototype.split('\n')]. *)
Fixpoint split_lf (s : jsstring) : list jsstring :=
  match s with
  | [] => [[]]
  | x :: s' =>
      if x =? 10 then [] :: split_lf s'
      else
        match split_lf s' with
        | l :: ls => (x :: l) :: ls
        | [] => [[x]]
        end
  end.

(** ** The patterns of the source *)

(** [/\[\s*(\d{4})\.(\d{2})\.(\d{2})\s+(\d{2}):(\d{2}):(\d{2})\s*\]/] *)
Definition TIMESTAMP_REGEX : re :=
  seq [ Chr (only "["); star space;
        Grp 1 (exactly 4 digit); Chr (only ".");
        Grp 2 (exactly 2 digit); Chr (only ".");
        Grp 3 (exactly 2 digit); plus space;
        Grp 4 (exactly 2 digit); Chr (only ":");
        Grp 5 (exactly 2 digit); Chr (only ":");
        Grp 6 (exactly 2 digit); star space; Chr (only "]") ].

(** [LOG_LINE_REGEX]: [\[\s*[\d.:\s]+\]\s*\((\w+)\)\s*] followed by group 2,
    the greedy run of [.] that takes the rest of the line. *)
Definition LOG_LINE_REGEX : re :=
  seq [ Chr (only "["); star space; plus stamp_char; Chr (only "]");
        star space; Chr (only "("); Grp 1 (plus word); Chr (only ")");
        star space; Grp 2 (star dot) ].

(** [<color=[^>]+><b>(\d+)<\/b>] with the number bound to group [i]. *)
Definition bold_number (i : nat) : re :=
  seq [ lit_i "<color="; plus (except ">"); lit_i "><b>";
        Grp i (plus digit); lit_i "</b>" ].

(** [<b><color=[^>]+>([^<]+)<\/color><\/b>] with the name bound to
    group [i]. *)
Definition bold_name (i : nat) : re :=
  seq [ lit_i "<b><color="; plus (except ">"); lit_i ">";
        Grp i (plus (except "<")); lit_i "</color></b>" ].

(** [/<color=[^>]+><b>(\d+)<\/b>.*?<color=[^>]+><b>(\d+)<\/b>.*?to\s+<b><color=[^>]+>([^<]+)<\/color><\/b>/i] *)
Definition DAMAGE_DEALT_REGEX : re :=
  seq [ bold_number 1; lazy_star dot; bold_number 2; lazy_star dot;
        lit_i "to"; plus space; bold_name 3 ].

(** [/<color=[^>]+><b>(\d+)<\/b>.*?from\s+<b><color=[^>]+>([^<]+)<\/color><\/b>/i] *)
Definition DAMAGE_RECEIVED_REGEX : re :=
  seq [ bold_number 1; lazy_star dot; lit_i "from"; plus space; bold_name 2 ].

(** [/misses\s+(?:you|<b><color=[^>]+>([^<]+)<\/color><\/b>)\s+completely/i] *)
Definition MISS_REGEX : re :=
  seq [ lit_i "misses"; plus space;
        Alt (lit_i "you") (bold_name 1);
        plus space; lit_i "completely" ].

(** [/-\s+<color=[^>]+><font[^>]*>([^<]+)<\/font>/i] *)
Definition WEAPON_REGEX : re :=
  seq [ lit_i "-"; plus space; lit_i "<color="; plus (except ">");
        lit_i "><font"; star (except ">"); lit_i ">";
        Grp 1 (plus (except "<")); lit_i "</font>" ].

(** [/(wrecks|penetrates|hits|grazes|glances|smashes)/i] *)
Definition HIT_QUALITY_REGEX : re :=
  Grp 1 (alts (lit_i "wrecks")
              [ lit_i "penetrates"; lit_i "hits"; lit_i "grazes";
                lit_i "glances"; lit_i "smashes" ]).

(** [/<[^>]+>/g] *)
Definition TAG_REGEX : re :=
  seq [ Chr (only "<"); plus (except ">"); Chr (only ">") ].

(** Group [i] is bound on every path through the pattern. *)
Fixpoint binds (i : nat) (r : re) : bool :=
  match r with
  | Grp j r1 => Nat.eqb i j || binds i r1
  | Cat r1 r2 => binds i r1 || binds i r2
  | Alt r1 r2 => binds i r1 && binds i r2
  | _ => false
  end.

(** ** Declarative reading of a pattern

    [Matches r s s'] holds when [r] can consume a prefix of [s] and leave
    [s']; it ignores priorities and captures. *)
Inductive Matches : re -> jsstring -> jsstring -> Prop :=
| M_Eps s : Matches Eps s s
| M_Chr p x s : p x = true -> Matches (Chr p) (x :: s) s
| M_Cat r1 r2 s s1 s2 :
    Matches r1 s s1 -> Matches r2 s1 s2 -> Matches (Cat r1 r2) s s2
| M_AltL r1 r2 s s' : Matches r1 s s' -> Matches (Alt r1 r2) s s'
| M_AltR r1 r2 s s' : Matches r2 s s' -> Matches (Alt r1 r2) s s'
| M_Rep g lo hi p w s :
    forallb p w = true -> (lo <= List.length w)%nat ->
    match hi with Some h => (List.length w <= h)%nat | None => True end ->
    Matches (Rep g lo hi p) (w ++ s) s
| M_Grp i r s s' : Matches r s s' -> Matches (Grp i r) s s'.

(** Every group of the pattern captures a text for which [Q] holds, given
    its group number. *)
Fixpoint respects (Q : nat -> jsstring -> Prop) (r : re) : Prop :=
  match r with
  | Grp i r1 =>
      (forall s s', Matches r1 s s' -> Q i (consumed s s')) /\ respects Q r1
  | Cat r1 r2 => respects Q r1 /\ respects Q r2
  | Alt r1 r2 => respects Q r1 /\ respects Q r2
  | _ => True
  end.

(** A nonempty run of characters of the set [p]. *)
Definition run_of (p : cset) (t : jsstring) : Prop :=
  t <> [] /\ forallb p t = true.

(** [line] has, at some offset, a bracketed block (["["], one or more
    characters of [[\d.:\s]], ["]"]) in front of a parenthesized channel
    type, with optional white space between the two. *)
Definition has_stamp_block (line : jsstring) : Prop :=
  exists pre w sp ty post,
    line = pre ++ chr "[" :: w ++ chr "]" :: sp ++ chr "(" :: ty
               ++ chr ")" :: post
    /\ w <> [] /\ forallb stamp_char w = true
    /\ forallb space sp = true
    /\ ty <> [] /\ forallb word ty = true.

(** [line] starts with such a block: nothing precedes the opening
    bracket. *)
Definition has_leading_stamp_block (line : jsstring) : Prop :=
  exists w sp ty post,
    line = chr "[" :: w ++ chr "]" :: sp ++ chr "(" :: ty ++ chr ")" :: post
    /\ w <> [] /\ forallb stamp_char w = true
    /\ forallb space sp = true
    /\ ty <> [] /\ forallb word ty = true.

(** Lines joined by line feeds, the inverse of [split_lf]. *)
Fixpoint join_lf (lines : list jsstring) : jsstring :=
  match lines with
  | [] => []
  | [l] => l
  | l :: ls => l ++ 10 :: join_lf ls
  end.

End Regex.

(* ================================================================== *)
(** * logParser.js *)
(* ================================================================== *)

Module LogParser.
Import Regex.

(** ** Numbers

    Damage totals and rates are rationals or NaN, computed exactly.  No
    quotient of the source has a zero divisor (each is guarded or divides
    by a positive constant).  The rounding of doubles is left out, and with
    it the infinity that a digit run of more than 308 digits is read
    as. *)

Inductive number : Type :=
| NaN
| Num (q : Q).

Definition num_add (a b : number) : number :=
  match a, b with
  | Num x, Num y => Num (x + y)
  | _, _ => NaN
  end.

Definition num_sub (a b : number) : number :=
  match a, b with
  | Num x, Num y => Num (x - y)
  | _, _ => NaN
  end.

Definition num_mul (a b : number) : number :=
  match a, b with
  | Num x, Num y => Num (x * y)
  | _, _ => NaN
  end.

Definition num_div (a b : number) : number :=
  match a, b with
  | Num x, Num y => Num (x / y)
  | _, _ => NaN
  end.

(** [a < b] and [a > b]; false on NaN. *)
Definition num_ltb (a b : number) : bool :=
  match a, b with
  | Num x, Num y => negb (Qle_bool y x)
  | _, _ => false
  end.

Definition num_gtb (a b : number) : bool := num_ltb b a.

Definition of_nat (n : nat) : number := Num (inject_Z (Z.of_nat n)).

(** Reading a field that may be absent: [undefined] converts to NaN. *)
Definition to_number (v : option number) : number :=
  match v with
  | Some n => n
  | None => NaN
  end.

(** ** parseInt *)

Definition digit_value (radix : N) (x : char) : option N :=
  let v :=
    if digit x then Some (x - 48)%N
    else if in_range 97%N 122%N x then Some (x - 87)%N
    else if in_range 65%N 90%N x then Some (x - 55)%N
    else None in
  match v with
  | Some d => if (d <? radix)%N then Some d else None
  | None => None
  end.

(** The value of the longest prefix of digits; [acc] is [None] until a digit
    has been read. *)
Fixpoint leading_digits (radix : N) (s : jsstring) (acc : option N)
  : option N :=
  match s with
  | [] => acc
  | x :: s' =>
      match digit_value radix x with
      | Some d =>
          leading_digits radix s'
            (Some (radix * match acc with Some a => a | None => 0 end + d)%N)
      | None => acc
      end
  end.

(** [parseInt(s)] with no radix argument: the exact value of the digits
    read, which is the number JavaScript returns as long as it is below
    2^53. *)
Definition parseInt (s : jsstring) : number :=
  let s0 := trim_start s in
  let '(negative, s1) :=
    match s0 with
    | 45%N :: t => (true, t)
    | 43%N :: t => (false, t)
    | _ => (false, s0)
    end in
  let '(radix, s2) :=
    match s1 with
    | 48%N :: x :: t =>
        if ((x =? 120) || (x =? 88))%N then (16%N, t) else (10%N, s1)
    | _ => (10%N, s1)
    end in
  match leading_digits radix s2 None with
  | Some n =>
      Num (inject_Z (if negative then Z.opp (Z.of_N n) else Z.of_N n))
  | None => NaN
  end.

(** ** Events *)

(** A [Date] object, read through its time value in milliseconds. *)
Definition Date : Type := number.

Inductive EventType : Type :=
| unknown
| damage_dealt
| damage_received
| miss.

Definition EventType_eqb (a b : EventType) : bool :=
  match a, b with
  | unknown, unknown => true
  | damage_dealt, damage_dealt => true
  | damage_received, damage_received => true
  | miss, miss => true
  | _, _ => false
  end.

(** The event object.  A field that was never assigned is [None]. *)
Record Event : Type := mkEvent {
  timestamp : option Date;
  raw : jsstring;
  type : EventType;
  damage : option number;
  target : option jsstring;
  source : option jsstring;
  weapon : option jsstring;
  hitQuality : option jsstring
}.

Definition set_type (v : EventType) (e : Event) : Event :=
  mkEvent (timestamp e) (raw e) v (damage e) (target e) (source e)
          (weapon e) (hitQuality e).
Definition set_damage (v : number) (e : Event) : Event :=
  mkEvent (timestamp e) (raw e) (type e) (Some v) (target e) (source e)
          (weapon e) (hitQuality e).
Definition set_target (v : jsstring) (e : Event) : Event :=
  mkEvent (timestamp e) (raw e) (type e) (damage e) (Some v) (source e)
          (weapon e) (hitQuality e).
Definition set_source (v : jsstring) (e : Event) : Event :=
  mkEvent (timestamp e) (raw e) (type e) (damage e) (target e) (Some v)
          (weapon e) (hitQuality e).
Definition set_weapon (v : jsstring) (e : Event) : Event :=
  mkEvent (timestamp e) (raw e) (type e) (damage e) (target e) (source e)
          (Some v) (hitQuality e).
Definition set_hitQuality (v : jsstring) (e : Event) : Event :=
  mkEvent (timestamp e) (raw e) (type e) (damage e) (target e) (source e)
          (weapon e) (Some v).

(** ** The line parser *)

Definition stripTags (s : jsstring) : jsstring :=
  trim (delete_all TAG_REGEX s).

(** A string is truthy when it is not empty. *)
Definition truthy (s : jsstring) : bool :=
  match s with
  | [] => false
  | _ :: _ => true
  end.

Section Parser.
(** [new Date(year, monthIndex, day, hours, minutes, seconds)]: local
    time, which depends on the host's time zone. *)
Variable newDate : number -> number -> number -> number -> number -> number
                   -> Date.

Definition parseTimestamp (line : jsstring) : option Date :=
  match exec TIMESTAMP_REGEX line with
  | None => None
  | Some m =>
      Some (newDate (parseInt (group m 1))
                    (num_sub (parseInt (group m 2)) (Num 1))
                    (parseInt (group m 3))
                    (parseInt (group m 4))
                    (parseInt (group m 5))
                    (parseInt (group m 6)))
  end.

(** The three classification checks and the two extractions, each a
    conditional update of the event under construction. *)
Definition check_damage_dealt (content : jsstring) (event : Event) : Event :=
  match exec DAMAGE_DEALT_REGEX content with
  | Some damageDealt =>
      set_target (stripTags (group damageDealt 3))
        (set_damage (parseInt (group damageDealt 1))
           (set_type damage_dealt event))
  | None => event
  end.

Definition check_damage_received (content : jsstring) (event : Event)
  : Event :=
  match exec DAMAGE_RECEIVED_REGEX content with
  | Some damageReceived =>
      set_source (stripTags (group damageReceived 2))
        (set_damage (parseInt (group damageReceived 1))
           (set_type damage_received event))
  | None => event
  end.

Definition check_miss (content : jsstring) (event : Event) : Event :=
  match exec MISS_REGEX content with
  | Some m =>
      set_target
        (if truthy (group m 1) then stripTags (group m 1) else str "you")
        (set_type miss event)
  | None => event
  end.

Definition extract_weapon (content : jsstring) (event : Event) : Event :=
  match exec WEAPON_REGEX content with
  | Some m => set_weapon (stripTags (group m 1)) event
  | None => event
  end.

Definition extract_hitQuality (content : jsstring) (event : Event) : Event :=
  match exec HIT_QUALITY_REGEX content with
  | Some m => set_hitQuality (toLowerCase (group m 1)) event
  | None => event
  end.

Definition parseCombatLine (line : jsstring) : option Event :=
  let timestamp := parseTimestamp line in
  match exec LOG_LINE_REGEX line with
  | None => None
  | Some lineMatch =>
      let type := group lineMatch 1 in
      let content := group lineMatch 2 in
      if negb (str_eqb type (str "combat")) then None
      else
        let event :=
          mkEvent timestamp line unknown None None None None None in
        let event := check_damage_dealt content event in
        let event := check_damage_received content event in
        let event := check_miss content event in
        let event := extract_weapon content event in
        let event := extract_hitQuality content event in
        Some event
  end.

(** The event built for a combat line whose content is [content]. *)
Definition event_of (line content : jsstring) : Event :=
  extract_hitQuality content
    (extract_weapon content
       (check_miss content
          (check_damage_received content
             (check_damage_dealt content
                (mkEvent (parseTimestamp line) line unknown
                         None None None None None))))).

(** One turn of the loop of [parseLogContent]: [events.push(event)] when
    the line yields an event whose type is not ['unknown']. *)
Definition push_line (events : list Event) (line : jsstring) : list Event :=
  match parseCombatLine line with
  | Some event =>
      if negb (EventType_eqb (type event) unknown)
      then events ++ [event]
      else events
  | None => events
  end.

Definition parseLogContent (content : jsstring) : list Event :=
  let lines := split_lf content in
  fold_left push_line lines [].

(** The channel type and the content of a line, when it has the line
    shape. *)
Definition line_shape (line : jsstring) : option (jsstring * jsstring) :=
  match exec LOG_LINE_REGEX line with
  | Some m => Some (group m 1, group m 2)
  | None => None
  end.

(** What a single line contributes to the result, stated without the
    accumulator. *)
Definition contribution (line : jsstring) : list Event :=
  match parseCombatLine line with
  | Some event =>
      match type event with
      | unknown => []
      | _ => [event]
      end
  | None => []
  end.
End Parser.

Definition matchesb (r : re) (s : jsstring) : bool :=
  match exec r s with
  | Some _ => true
  | None => false
  end.

(** The type that the precedence "miss over damage_received over
    damage_dealt" assigns to a content. *)
Definition latest_rule (content : jsstring) : EventType :=
  if matchesb MISS_REGEX content then miss
  else if matchesb DAMAGE_RECEIVED_REGEX content then damage_received
  else if matchesb DAMAGE_DEALT_REGEX content then damage_dealt
  else unknown.

(** ** The statistics reducer

    The three breakdown tables ([targets], [weapons], [hitQualities]) are
    only written to; no other field of the result depends on them, and they
    are not part of this model. *)

Record Timespan : Type := mkTimespan {
  ts_start : option Date;
  ts_end : option Date
}.

Record Stats : Type := mkStats {
  totalDamageDealt : number;
  totalDamageReceived : number;
  shotsHit : nat;
  shotsMissed : nat;
  hitRate : number;
  timespan : Timespan;
  dps : option number
}.

Definition initial_stats : Stats :=
  mkStats (Num 0) (Num 0) 0 0 (Num 0) (mkTimespan None None) None.

(** [!bound || pred(bound)] for a nullable bound. *)
Definition unset_or (bound : option Date) (pred : Date -> bool) : bool :=
  match bound with
  | None => true
  | Some b => pred b
  end.

Definition track_timespan (t : Timespan) (event : Event) : Timespan :=
  match timestamp event with
  | None => t
  | Some ts =>
      let t1 :=
        if unset_or (ts_start t) (fun s => num_ltb ts s)
        then mkTimespan (Some ts) (ts_end t) else t in
      if unset_or (ts_end t1) (fun e => num_gtb ts e)
      then mkTimespan (ts_start t1) (Some ts) else t1
  end.

(** The body of the [for] loop. *)
Definition stats_step (stats : Stats) (event : Event) : Stats :=
  let span := track_timespan (timespan stats) event in
  match type event with
  | damage_dealt =>
      mkStats (num_add (totalDamageDealt stats) (to_number (damage event)))
              (totalDamageReceived stats)
              (S (shotsHit stats)) (shotsMissed stats)
              (hitRate stats) span (dps stats)
  | damage_received =>
      mkStats (totalDamageDealt stats)
              (num_add (totalDamageReceived stats) (to_number (damage event)))
              (shotsHit stats) (shotsMissed stats)
              (hitRate stats) span (dps stats)
  | miss =>
      mkStats (totalDamageDealt stats) (totalDamageReceived stats)
              (shotsHit stats) (S (shotsMissed stats))
              (hitRate stats) span (dps stats)
  | unknown =>
      mkStats (totalDamageDealt stats) (totalDamageReceived stats)
              (shotsHit stats) (shotsMissed stats)
              (hitRate stats) span (dps stats)
  end.

(** The span in seconds between two dates. *)
Definition durationSeconds (s e : Date) : number :=
  num_div (num_sub e s) (Num 1000).

Definition finish (stats : Stats) : Stats :=
  let totalShots := (shotsHit stats + shotsMissed stats)%nat in
  let rate :=
    if (0 <? totalShots)%nat
    then num_mul (num_div (of_nat (shotsHit stats)) (of_nat totalShots))
                 (Num 100)
    else Num 0 in
  let d :=
    match ts_start (timespan stats), ts_end (timespan stats) with
    | Some s, Some e =>
        Some (if num_gtb (durationSeconds s e) (Num 0)
              then num_div (totalDamageDealt stats) (durationSeconds s e)
              else Num 0)
    | _, _ => dps stats
    end in
  mkStats (totalDamageDealt stats) (totalDamageReceived stats)
          (shotsHit stats) (shotsMissed stats) rate (timespan stats) d.

Definition calculateStats (events : list Event) : Stats :=
  finish (fold_left stats_step events initial_stats).

(** Number of events of a given type. *)
Definition count_type (t : EventType) (events : list Event) : nat :=
  List.length (filter (fun e => EventType_eqb (type e) t) events).

(** The span between the two endpoints is strictly positive. *)
Definition span_positive (t : Timespan) : Prop :=
  match ts_start t, ts_end t with
  | Some s, Some e => num_gtb (durationSeconds s e) (Num 0) = true
  | _, _ => False
  end.

(** ** Fixtures *)

(** A clock for examples: the fields are combined as if every month had 31
    days; any other clock serves as well, no result below depends on it. *)
Definition sampleDate (y mo d h mi s : number) : Date :=
  num_mul
    (num_add s (num_mul (Num 60) (num_add mi (num_mul (Num 60) (num_add h
       (num_mul (Num 24) (num_add d (num_mul (Num 31) (num_add mo
          (num_mul (Num 12) y))))))))))
    (Num 1000).

Definition bold_amount (n : string) : string :=
  ("<color=0xff00ffff><b>" ++ n ++ "</b>")%string.
Definition bold_pilot (n : string) : string :=
  ("<b><color=0xffffffff>" ++ n ++ "</color></b>")%string.
Definition stamp : string := "[ 2024.01.15 20:30:00 ] (combat) ".

(** Matches the damage-dealt and the miss pattern. *)
Definition line_dealt_miss : jsstring :=
  str (stamp ++ bold_amount "50" ++ " " ++ bold_amount "7" ++ " to "
       ++ bold_pilot "Alpha" ++ " misses " ++ bold_pilot "Beta"
       ++ " completely").

(** Matches the damage-dealt and the damage-received pattern. *)
Definition line_dealt_received : jsstring :=
  str (stamp ++ bold_amount "50" ++ " " ++ bold_amount "7" ++ " to "
       ++ bold_pilot "Alpha" ++ " from " ++ bold_pilot "Gamma").

(** Matches all three patterns. *)
Definition line_all_three : jsstring :=
  str (stamp ++ bold_amount "50" ++ " " ++ bold_amount "7" ++ " to "
       ++ bold_pilot "Alpha" ++ " from " ++ bold_pilot "Gamma"
       ++ " misses you completely").

(** Combat content behind a bracketed block that does not start the line. *)
Definition line_offset_stamp : jsstring :=
  str ("x[1](combat) misses you completely").

(** Well-formed combat content without any bracketed block. *)
Definition line_no_stamp : jsstring :=
  str ("(combat) " ++ bold_amount "50" ++ " from " ++ bold_pilot "Gamma").

(** The events expected for the lines above. *)
Definition stamp_date : Date :=
  sampleDate (Num 2024) (Num 0) (Num 15) (Num 20) (Num 30) (Num 0).

Definition event_dealt_miss : Event :=
  mkEvent (Some stamp_date) line_dealt_miss miss (Some (Num 50))
          (Some (str "Beta")) None None None.

Definition event_dealt_received : Event :=
  mkEvent (Some stamp_date) line_dealt_received damage_received
          (Some (Num 50)) (Some (str "Alpha")) (Some (str "Gamma")) None None.

Definition event_all_three : Event :=
  mkEvent (Some stamp_date) line_all_three miss (Some (Num 50))
          (Some (str "you")) (Some (str "Gamma")) None None.

(** A received hit with a weapon and a hit quality. *)
Definition line_full : jsstring :=
  str (stamp ++ bold_amount "50" ++ " from " ++ bold_pilot " Gamma "
       ++ " - <color=0x77ffffff><font size=10>Railgun II</font> - Smashes").

Definition event_full : Event :=
  mkEvent (Some stamp_date) line_full damage_received (Some (Num 50))
          None (Some (str "Gamma")) (Some (str "Railgun II"))
          (Some (str "smashes")).


(** A single timestamped hit: both endpoints of the span coincide. *)
Definition lone_hit : Event :=
  mkEvent (Some stamp_date) [] damage_dealt (Some (Num 50))
          (Some (str "Alpha")) None None None.

(** Two hits, two seconds apart. *)
Definition later_hit : Event :=
  mkEvent (Some (num_add stamp_date (Num 2000))) [] damage_dealt
          (Some (Num 30)) (Some (str "Alpha")) None None None.

(** ** Measures used to state properties of the pipeline *)

(** The number [n] as a JavaScript number. *)
Definition natural (n : N) : number := Num (inject_Z (Z.of_N n)).

(** Number of line feeds in a text. *)
Definition count_lf (s : jsstring) : nat :=
  List.length (filter (fun x => (x =? 10)%N) s).


(** The six hit-quality keywords, in lower case. *)
Definition hit_qualities : list jsstring :=
  [ str "wrecks"; str "penetrates"; str "hits"; str "grazes";
    str "glances"; str "smashes" ].

(** A text neither starts nor ends with white space. *)
Definition trimmed (s : jsstring) : Prop :=
  (forall x rest, s = x :: rest -> space x = false)
  /\ (forall front x, s = front ++ [x] -> space x = false).

(** The numeric time values carried by the events, in order. *)
Fixpoint stamps (events : list Event) : list Q :=
  match events with
  | [] => []
  | e :: rest =>
      match timestamp e with
      | Some (Num q) => q :: stamps rest
      | _ => stamps rest
      end
  end.

(** What the loop knows after the time values [seen]: nothing, or the
    least and the greatest of them. *)
Definition span_of (t : Timespan) (seen : list Q) : Prop :=
  match seen with
  | [] => t = mkTimespan None None
  | _ :: _ =>
      exists s e,
        t = mkTimespan (Some (Num s)) (Some (Num e))
        /\ In s seen /\ In e seen
        /\ forall q, In q seen -> s <= q <= e
  end.

(** ** findRecentLogs *)

(** [String.prototype.endsWith]. *)
Definition endsWith (s suffix : jsstring) : bool :=
  (List.length suffix <=? List.length s)%nat
  && str_eqb (skipn (List.length s - List.length suffix) s) suffix.

(** [/^(\d{8}_\d{6})/]; the anchor is rendered by matching at the head of
    the name only. *)
Definition FILE_DATE_REGEX : re :=
  Grp 1 (seq [ exactly 8 digit; Chr (only "_"); exactly 6 digit ]).

Record LogFile : Type := mkLogFile {
  lf_name : jsstring;
  lf_path : jsstring;
  lf_date : jsstring
}.

(** [Array.prototype.slice(0, limit)] for an integer [limit]; a negative
    limit counts from the end. *)
Definition slice0 {A : Type} (l : list A) (limit : Z) : list A :=
  if (limit <? 0)%Z
  then firstn (List.length l - Z.to_nat (- limit)) l
  else firstn (Z.to_nat limit) l.

Section RecentLogs.
(** [path.join], which depends on the host platform. *)
Variable path_join : jsstring -> jsstring -> jsstring.

(** [sort((a, b) => b.date.localeCompare(a.date))]: the order is that of
    the host's collation; a sort rearranges its input. *)
Variable sort_by_date : list LogFile -> list LogFile.

Definition date_key (f : jsstring) : jsstring :=
  match match_here FILE_DATE_REGEX f with
  | Some (_, m) => group m 1
  | None => str "0"
  end.

Definition log_entry (logsDir f : jsstring) : LogFile :=
  mkLogFile f (path_join logsDir f) (date_key f).

(** [listing] is the outcome of [readdir]: [None] when it throws.  The
    default of [limit] is 10. *)
Definition findRecentLogs (listing : option (list jsstring))
    (logsDir : jsstring) (limit : option Z) : list jsstring :=
  match listing with
  | None => []
  | Some files =>
      let logFiles :=
        slice0
          (sort_by_date
             (map (log_entry logsDir)
                  (filter (fun f => endsWith f (str ".txt")) files)))
          (match limit with Some n => n | None => 10%Z end) in
      map lf_path logFiles
  end.
End RecentLogs.

End LogParser.

(* ================================================================== *)
(** * server.js: the handlers that call the two modules *)
(* ================================================================== *)

Module Server.
Import PrimFloat.
Local Open Scope float_scope.

(** [parseFloat(x) || fallback] on the double that [parseFloat] returned:
    NaN and the two zeros are falsy. *)
Definition orDefault (v fallback : float) : float :=
  if is_nan v || (v =? 0) then fallback else v.

(** The parameter object built by [POST /api/calculate] from the six
    [parseFloat] results, and the result object that the handler hands to
    [res.json]. *)
Definition calculateParams (transversal distance trackingSpeed
    signatureRadius optimalRange falloff : float)
  : Calculator64.HitParams :=
  Calculator64.mkHitParams
    (orDefault transversal 0)
    (orDefault distance 1)
    (orDefault trackingSpeed 0.01)
    (orDefault signatureRadius 100)
    (orDefault optimalRange 10000)
    (orDefault falloff 5000).

Definition apiCalculate (m : Calculator64.Libm) (transversal distance
    trackingSpeed signatureRadius optimalRange falloff : float)
  : Calculator64.HitResult :=
  Calculator64.calculateHitChance m
    (calculateParams transversal distance trackingSpeed signatureRadius
                     optimalRange falloff).

(** [POST /api/max-transversal]. *)
Definition maxTransversalParams (targetHitChance distance trackingSpeed
    signatureRadius optimalRange falloff : float)
  : Calculator64.MaxTransversalParams :=
  Calculator64.mkMaxTransversalParams
    (orDefault targetHitChance 0.5)
    (orDefault distance 1)
    (orDefault trackingSpeed 0.01)
    (orDefault signatureRadius 100)
    (orDefault optimalRange 10000)
    (orDefault falloff 5000).

Definition apiMaxTransversal (m : Calculator64.Libm) (targetHitChance
    distance trackingSpeed signatureRadius optimalRange falloff
    : float) : float :=
  Calculator64.calculateMaxTransversal m
    (maxTransversalParams targetHitChance distance trackingSpeed
                          signatureRadius optimalRange falloff).

(** A double that JavaScript takes for true: neither NaN nor a zero. *)
Definition truthy (v : float) : bool :=
  negb (is_nan v || (v =? 0)).

(** [POST /api/parse-log] on a text body: the events and the statistics
    handed to [res.json]. *)
Definition apiParseLog
    (newDate : LogParser.number -> LogParser.number -> LogParser.number ->
               LogParser.number -> LogParser.number -> LogParser.number ->
               LogParser.Date)
    (body : Regex.jsstring) : list LogParser.Event * LogParser.Stats :=
  let events := LogParser.parseLogContent newDate body in
  let stats := LogParser.calculateStats events in
  (events, stats).

End Server.

(* ================================================================== *)
(** * Properties of the hit-chance model *)
(* ================================================================== *)

Module CalculatorFacts.
Import Calculator.
Local Open Scope R_scope.

(** Decide every comparison of reals in the goal, closing the impossible
    branches by linear arithmetic. *)
Ltac decide_reals :=
  repeat match goal with
  | |- context [Rle_dec ?a ?b] => destruct (Rle_dec a b); try lra
  | |- context [Rlt_dec ?a ?b] => destruct (Rlt_dec a b); try lra
  | |- context [Req_dec_T ?a ?b] => destruct (Req_dec_T a b); try lra
  end.

Lemma leb_Fin (x y : R) : leb (Fin x) (Fin y) = true <-> x <= y.
Proof.
  unfold leb. destruct (Rle_dec x y); split; intros; try easy; try discriminate.
Qed.

Lemma leb_Fin_false (x y : R) : leb (Fin x) (Fin y) = false <-> y < x.
Proof.
  unfold leb. destruct (Rle_dec x y); split; intros; try easy; try discriminate; lra.
Qed.


Lemma gtb_Fin_false (x y : R) : gtb (Fin x) (Fin y) = false <-> x <= y.
Proof.
  unfold gtb. destruct (Rlt_dec y x); split; intros; try easy; try discriminate; lra.
Qed.

Lemma square_nonneg (r : R) : 0 <= r * r.
Proof. apply (Rle_0_sqr r). Qed.

Lemma ln_half_neg : ln (1 / 2) < 0.
Proof.
  rewrite <- ln_1. apply ln_increasing; lra.
Qed.

Lemma half_decimal : 0.5 = 1 / 2.
Proof. lra. Qed.

Lemma Math_log_half : Math_log (Fin 0.5) = Fin (ln (1 / 2)).
Proof.
  rewrite half_decimal. unfold Math_log. decide_reals. reflexivity.
Qed.

Lemma Math_log_pos (h : R) : 0 < h -> Math_log (Fin h) = Fin (ln h).
Proof.
  intros Hh. unfold Math_log. decide_reals. reflexivity.
Qed.

(** [log(h) / log(0.5)] for a positive real [h]. *)
Lemma totalExponent_real (h : R) :
  0 < h ->
  div (Math_log (Fin h)) (Math_log (Fin 0.5)) = Fin (ln h / ln (1 / 2)).
Proof.
  intros Hh. rewrite Math_log_half, Math_log_pos by assumption.
  unfold div. pose proof ln_half_neg. decide_reals. reflexivity.
Qed.


(** ** The components on real inputs *)




(** The range component of real inputs, case by case. *)
Lemma rangeComponent_real (d o f : R) :
  calculateRangeComponent (Fin d) (Fin o) (Fin f) =
  if Rle_dec f 0 then (if Rlt_dec o d then PInf else Fin 0)
  else if Rle_dec (d - o) 0 then Fin (0 / f * (0 / f))
  else Fin ((d - o) / f * ((d - o) / f)).
Proof.
  unfold calculateRangeComponent, leb, gtb, sub, neg, add, Math_max, leb, div, mul.
  destruct (Rle_dec f 0); [destruct (Rlt_dec o d); reflexivity |].
  replace (d + - o) with (d - o) by lra.
  destruct (Rle_dec 0 (d - o)); destruct (Rle_dec (d - o) 0);
    destruct (Req_dec_T f 0); try lra; try reflexivity.
  assert (E : d - o = 0) by lra. rewrite E. reflexivity.
Qed.

Lemma rangeComponent_nonneg (d o f : R) :
  nonneg (calculateRangeComponent (Fin d) (Fin o) (Fin f)).
Proof.
  rewrite rangeComponent_real.
  destruct (Rle_dec f 0); [destruct (Rlt_dec o d); cbn; try exact I; lra |].
  destruct (Rle_dec (d - o) 0); cbn; apply square_nonneg.
Qed.



(** The range component of real inputs is a nonnegative real or [PInf]. *)
Lemma rangeComponent_cases (d o f : R) :
  (exists rc, calculateRangeComponent (Fin d) (Fin o) (Fin f) = Fin rc /\ 0 <= rc)
  \/ calculateRangeComponent (Fin d) (Fin o) (Fin f) = PInf.
Proof.
  pose proof (rangeComponent_nonneg d o f) as H.
  destruct (calculateRangeComponent (Fin d) (Fin o) (Fin f)); cbn in H;
    try contradiction.
  - left. now exists x.
  - now right.
Qed.

(** ** The inverse on real inputs *)


Lemma maxTransversal_valid (h d ts sr o f : R) :
  0 < h <= 1 ->
  calculateMaxTransversal (realMax h d ts sr o f) =
  let budget :=
    sub (Fin (ln h / ln (1 / 2)))
        (calculateRangeComponent (Fin d) (Fin o) (Fin f)) in
  if leb budget (Fin 0) then PInf
  else mul (div (mul (mul (Math_sqrt budget) (Fin ts)) (Fin sr))
                SIGNATURE_RESOLUTION) (Fin d).
Proof.
  intros [H0 H1]. unfold calculateMaxTransversal, realMax.
  cbn [targetHitChance mt_distance mt_trackingSpeed mt_signatureRadius
       mt_optimalRange mt_falloff].
  assert (E1 : leb (Fin h) (Fin 0) = false) by (apply leb_Fin_false; lra).
  assert (E2 : gtb (Fin h) (Fin 1) = false) by (apply gtb_Fin_false; lra).
  rewrite E1, E2. cbn [orb]. rewrite totalExponent_real by assumption.
  reflexivity.
Qed.

Lemma maxTransversal_range_infinite (h d ts sr o f : R) :
  0 < h <= 1 ->
  calculateRangeComponent (Fin d) (Fin o) (Fin f) = PInf ->
  calculateMaxTransversal (realMax h d ts sr o f) = PInf.
Proof.
  intros Hh E. rewrite maxTransversal_valid by assumption. rewrite E.
  reflexivity.
Qed.

Lemma maxTransversal_no_budget (h d ts sr o f rc : R) :
  0 < h <= 1 ->
  calculateRangeComponent (Fin d) (Fin o) (Fin f) = Fin rc ->
  ln h / ln (1 / 2) - rc <= 0 ->
  calculateMaxTransversal (realMax h d ts sr o f) = PInf.
Proof.
  intros Hh E Hb. rewrite maxTransversal_valid by assumption. rewrite E.
  cbn [sub neg add]. cbv zeta.
  assert (El : leb (Fin (ln h / ln (1 / 2) + - rc)) (Fin 0) = true)
    by (apply leb_Fin; lra).
  rewrite El. reflexivity.
Qed.

Lemma maxTransversal_budget (h d ts sr o f rc : R) :
  0 < h <= 1 ->
  calculateRangeComponent (Fin d) (Fin o) (Fin f) = Fin rc ->
  0 < ln h / ln (1 / 2) - rc ->
  calculateMaxTransversal (realMax h d ts sr o f) =
  Fin (sqrt (ln h / ln (1 / 2) - rc) * ts * sr / 40000 * d).
Proof.
  intros Hh E Hb. rewrite maxTransversal_valid by assumption. rewrite E.
  cbn [sub neg add]. cbv zeta.
  replace (ln h / ln (1 / 2) + - rc) with (ln h / ln (1 / 2) - rc) by lra.
  assert (El : leb (Fin (ln h / ln (1 / 2) - rc)) (Fin 0) = false)
    by (apply leb_Fin_false; lra).
  rewrite El. unfold Math_sqrt, SIGNATURE_RESOLUTION.
  destruct (Rlt_dec (ln h / ln (1 / 2) - rc) 0); [lra |].
  cbn [mul div]. destruct (Req_dec_T 40000 0); [lra | reflexivity].
Qed.

(** ** Claims about the numeric model *)



(** C4, as stated, fails: with a negative tracking speed the result is a
    negative real. *)
Lemma maxTransversal_negative :
  calculateMaxTransversal reversed = Fin (- / 40000)
  /\ ~ nonneg (calculateMaxTransversal reversed).
Proof.
  assert (E : calculateMaxTransversal reversed = Fin (- / 40000)).
  { unfold reversed.
    assert (Er : calculateRangeComponent (Fin 1) (Fin 10) (Fin 1)
                 = Fin (0 / 1 * (0 / 1))).
    { rewrite rangeComponent_real.
      destruct (Rle_dec 1 0); [lra |].
      destruct (Rle_dec (1 - 10) 0); [reflexivity | lra]. }
    pose proof ln_half_neg as Hn.
    assert (Et : ln (1 / 2) / ln (1 / 2) - 0 / 1 * (0 / 1) = 1)
      by (field; lra).
    rewrite (maxTransversal_budget (1 / 2) 1 (-1) 1 10 1 (0 / 1 * (0 / 1)))
      by first [exact Er | lra].
    rewrite Et, sqrt_1. f_equal. field. }
  split; [exact E |]. rewrite E. cbn.
  assert (0 < / 40000) by (apply Rinv_0_lt_compat; lra). lra.
Qed.




End CalculatorFacts.

(* ================================================================== *)
(** * Properties of the hit-chance model on binary64 numbers *)
(* ================================================================== *)

Module Calculator64Facts.
Import Calculator64 PrimFloat FloatOps FloatAxioms SpecFloat.
Local Open Scope float_scope.

(** ** Signs on the specification side *)

Lemma Prim2SF_zero : Prim2SF 0 = S754_zero false.
Proof. reflexivity. Qed.

Lemma not_negative_spec (x : float) :
  not_negative x = true <-> SFnn (Prim2SF x).
Proof.
  unfold not_negative. rewrite negb_true_iff, ltb_spec, Prim2SF_zero.
  unfold SFltb. destruct (Prim2SF x) as [s | s | | s m e]; cbn;
    try destruct s; split; intros H; try reflexivity; try discriminate;
    exact I.
Qed.

Lemma leb_zero_nn (x : float) : (0 <=? x) = true -> not_negative x = true.
Proof.
  rewrite not_negative_spec, leb_spec, Prim2SF_zero. unfold SFleb.
  destruct (Prim2SF x) as [s | s | | s m e]; cbn; try destruct s;
    intros H; try reflexivity; try discriminate; exact I.
Qed.

Lemma nn_cases (x : float) :
  not_negative x = true -> is_nan x = true \/ (0 <=? x) = true.
Proof.
  rewrite not_negative_spec. unfold is_nan.
  rewrite leb_spec, FloatAxioms.eqb_spec, Prim2SF_zero. unfold SFleb, SFeqb.
  destruct (Prim2SF x) as [s | s | | s m e]; cbn; intros H; subst; auto.
Qed.

Lemma binary_round_aux_sign (prec emax : Z) (s : bool) (m e : Z)
    (l : location) :
  SFsigned s (binary_round_aux prec emax s m e l).
Proof.
  unfold binary_round_aux.
  destruct (shr_fexp prec emax m e l) as [mrs e'].
  destruct (shr_fexp prec emax _ e' loc_Exact) as [mrs' e''].
  destruct (shr_m mrs'); [reflexivity | | exact I].
  destruct (e'' <=? emax - prec)%Z; reflexivity.
Qed.

Lemma SFsigned_false_nn (r : spec_float) : SFsigned false r -> SFnn r.
Proof. destruct r; cbn; auto. Qed.

Lemma SFmul_nn (x y : spec_float) :
  SFnn x -> SFnn y -> SFnn (SF64mul x y).
Proof.
  unfold SF64mul, SFmul.
  destruct x as [sx | sx | | sx mx ex], y as [sy | sy | | sy my ey]; cbn;
    intros Hx Hy; subst; try exact I; try reflexivity.
  apply SFsigned_false_nn, binary_round_aux_sign.
Qed.

Lemma SFmul_square (x : spec_float) : SFnn (SF64mul x x).
Proof.
  unfold SF64mul, SFmul.
  destruct x as [sx | sx | | sx mx ex]; cbn; try exact I.
  - now destruct sx.
  - apply SFsigned_false_nn. rewrite xorb_nilpotent.
    apply binary_round_aux_sign.
Qed.

Lemma SFdiv_nn (x : spec_float) (my : positive) (ey : Z) :
  SFnn x -> SFnn (SF64div x (S754_finite false my ey)).
Proof.
  unfold SF64div, SFdiv.
  destruct x as [sx | sx | | sx mx ex]; cbn; intros Hx; subst;
    try exact I; try reflexivity.
  destruct (SFdiv_core_binary prec emax (Z.pos mx) ex (Z.pos my) ey)
    as [[mz ez] lz].
  apply SFsigned_false_nn, binary_round_aux_sign.
Qed.

Lemma SFsqrt_nn (x : spec_float) : SFnn (SF64sqrt x).
Proof.
  unfold SF64sqrt, SFsqrt.
  destruct x as [sx | sx | | sx mx ex]; cbn; try exact I.
  - now destruct sx.
  - destruct sx; [exact I |].
    destruct (SFsqrt_core_binary prec emax (Z.pos mx) ex) as [[mz ez] lz].
    apply SFsigned_false_nn, binary_round_aux_sign.
Qed.

Lemma SFadd_nn (x y : spec_float) :
  SFnn x -> SFnn y -> SFnn (SF64add x y).
Proof.
  unfold SF64add, SFadd.
  destruct x as [sx | sx | | sx mx ex], y as [sy | sy | | sy my ey]; cbn;
    intros Hx Hy; subst; try exact I; try reflexivity;
    try (destruct sx; try destruct sy; exact I).
  set (a := fst (shl_align mx ex _)). set (b := fst (shl_align my ey _)).
  change (cond_Zopp false (Z.pos a) + cond_Zopp false (Z.pos b))%Z
    with (Z.pos (a + b)).
  unfold binary_normalize. lazy iota beta. unfold binary_round.
  match goal with
  | |- context [shl_align (a + b) ?e1 ?e2] =>
      destruct (shl_align (a + b) e1 e2) as [mz ez]
  end.
  apply SFsigned_false_nn, binary_round_aux_sign.
Qed.


(** ** Signs of the operations on doubles *)

Lemma mul_nn (a b : float) :
  not_negative a = true -> not_negative b = true ->
  not_negative (a * b) = true.
Proof.
  rewrite !not_negative_spec, mul_spec. apply SFmul_nn.
Qed.

Lemma square_nn (a : float) : not_negative (a * a) = true.
Proof. rewrite not_negative_spec, mul_spec. apply SFmul_square. Qed.

Lemma add_nn (a b : float) :
  not_negative a = true -> not_negative b = true ->
  not_negative (a + b) = true.
Proof.
  rewrite !not_negative_spec, add_spec. apply SFadd_nn.
Qed.

Lemma sqrt_nn (a : float) : not_negative (Math_sqrt a) = true.
Proof.
  unfold Math_sqrt. rewrite not_negative_spec, sqrt_spec. apply SFsqrt_nn.
Qed.

Lemma div_resolution_nn (a : float) :
  not_negative a = true -> not_negative (a / SIGNATURE_RESOLUTION) = true.
Proof.
  rewrite !not_negative_spec, div_spec.
  assert (E : exists m e,
             Prim2SF SIGNATURE_RESOLUTION = S754_finite false m e)
    by (do 2 eexists; vm_compute; reflexivity).
  destruct E as (m & e & ->). apply SFdiv_nn.
Qed.

Lemma trackingComponent_nn (av ts sr : float) :
  not_negative (calculateTrackingComponent av ts sr) = true.
Proof.
  unfold calculateTrackingComponent.
  destruct ((ts <=? 0) || (sr <=? 0)); [reflexivity | apply square_nn].
Qed.

Lemma rangeComponent_nn (d o f : float) :
  not_negative (calculateRangeComponent d o f) = true.
Proof.
  unfold calculateRangeComponent.
  destruct (f <=? 0); [destruct (o <? d); reflexivity | apply square_nn].
Qed.

Lemma maxTransversal_nn (m : Libm) (p : MaxTransversalParams) :
  (0 <=? mt_distance p) = true ->
  (0 <=? mt_trackingSpeed p) = true ->
  (0 <=? mt_signatureRadius p) = true ->
  not_negative (calculateMaxTransversal m p) = true.
Proof.
  intros Hd Hts Hsr. unfold calculateMaxTransversal.
  destruct ((targetHitChance p <=? 0) || (1 <? targetHitChance p));
    [reflexivity |].
  cbv zeta.
  destruct (_ - _ <=? 0); [reflexivity |].
  apply mul_nn; [| now apply leb_zero_nn].
  apply div_resolution_nn.
  apply mul_nn; [| now apply leb_zero_nn].
  apply mul_nn; [apply sqrt_nn | now apply leb_zero_nn].
Qed.


(** ** Comparisons *)

Lemma SFcompare_antisym (x y : spec_float) :
  SFcompare y x = option_map CompOpp (SFcompare x y).
Proof.
  destruct x as [sx | sx | | sx mx ex], y as [sy | sy | | sy my ey]; cbn;
    try reflexivity;
    try (destruct sx; try destruct sy; reflexivity);
    try (destruct sy; reflexivity).
  destruct sx, sy; try reflexivity.
  - rewrite (Z.compare_antisym ey ex).
    pose proof (Pos.compare_cont_antisym mx my Eq) as A. cbn in A.
    destruct (ey ?= ex)%Z; cbn; try reflexivity.
    now rewrite <- A, CompOpp_involutive.
  - rewrite (Z.compare_antisym ey ex).
    pose proof (Pos.compare_cont_antisym mx my Eq) as A. cbn in A.
    destruct (ey ?= ex)%Z; cbn; try reflexivity.
    now rewrite <- A.
Qed.

Lemma SFcompare_refl (x : spec_float) :
  x <> S754_nan -> SFcompare x x = Some Eq.
Proof.
  destruct x as [s | s | | s m e]; cbn; intros H;
    try reflexivity; try contradiction; try (now destruct s).
  rewrite Z.compare_refl, Pos.compare_cont_refl. now destruct s.
Qed.

Lemma leb_not_nan_r (x y : float) : (x <=? y) = true -> is_nan y = false.
Proof.
  unfold is_nan. rewrite leb_spec, FloatAxioms.eqb_spec.
  unfold SFleb, SFeqb. intros H.
  rewrite SFcompare_refl; [reflexivity |].
  intros E. rewrite E in H. now destruct (Prim2SF x).
Qed.

Lemma leb_not_nan_l (x y : float) : (x <=? y) = true -> is_nan x = false.
Proof.
  unfold is_nan. rewrite leb_spec, FloatAxioms.eqb_spec.
  unfold SFleb, SFeqb. intros H.
  rewrite SFcompare_refl; [reflexivity |].
  intros E. now rewrite E in H.
Qed.

Lemma eqb_refl (x : float) : is_nan x = false -> (x =? x) = true.
Proof. unfold is_nan. now rewrite negb_false_iff. Qed.

Lemma leb_ltb_eqb (x y : float) :
  (x <=? y) = true -> (x <? y) = false -> (x =? y) = true.
Proof.
  rewrite leb_spec, ltb_spec, FloatAxioms.eqb_spec.
  unfold SFleb, SFltb, SFeqb.
  destruct (SFcompare (Prim2SF x) (Prim2SF y)) as [[| |] |];
    intros; try reflexivity; discriminate.
Qed.

Lemma leb_not_gt (x y : float) : (x <=? y) = true -> (y <? x) = false.
Proof.
  rewrite leb_spec, ltb_spec. unfold SFleb, SFltb.
  rewrite (SFcompare_antisym (Prim2SF x) (Prim2SF y)).
  destruct (SFcompare (Prim2SF x) (Prim2SF y)) as [[| |] |]; cbn;
    intros; try reflexivity; discriminate.
Qed.

Lemma eqb_sym (x y : float) : (x =? y) = true -> (y =? x) = true.
Proof.
  rewrite !FloatAxioms.eqb_spec. unfold SFeqb.
  rewrite (SFcompare_antisym (Prim2SF x) (Prim2SF y)).
  destruct (SFcompare (Prim2SF x) (Prim2SF y)) as [[| |] |]; cbn;
    intros; try reflexivity; discriminate.
Qed.

(** ** The clamp *)

Lemma max_zero (v : float) :
  (0 <=? v) = true ->
  Math_max 0 v = v \/ (Math_max 0 v = 0 /\ (0 =? v) = true).
Proof.
  intros H. unfold Math_max.
  rewrite (leb_not_nan_r 0 v H). change (is_nan 0) with false. cbn [orb].
  destruct (0 <? v) eqn:E; [now left |].
  rewrite (leb_not_gt 0 v H). change (classify 0) with FloatClass.PZero.
  right. split; [reflexivity | now apply leb_ltb_eqb].
Qed.

Lemma min_one (w : float) :
  (w <=? 1) = true ->
  Math_min 1 w = w \/ (Math_min 1 w = 1 /\ (1 =? w) = true).
Proof.
  intros H. unfold Math_min.
  rewrite (leb_not_nan_l w 1 H). change (is_nan 1) with false. cbn [orb].
  rewrite (leb_not_gt w 1 H).
  destruct (w <? 1) eqn:E; [now left |].
  change (classify 1) with FloatClass.PNormal.
  right. split; [reflexivity |]. apply eqb_sym. now apply leb_ltb_eqb.
Qed.

Lemma clamp_unit64 (v : float) :
  (0 <=? v) = true -> (v <=? 1) = true ->
  (Math_min 1 (Math_max 0 v) =? v) = true
  /\ (0 <=? Math_min 1 (Math_max 0 v)) = true
  /\ (Math_min 1 (Math_max 0 v) <=? 1) = true.
Proof.
  intros H0 H1.
  destruct (max_zero v H0) as [-> | [-> Hz]].
  - destruct (min_one v H1) as [-> | [-> H1v]].
    + repeat split; try assumption.
      apply eqb_refl. now apply (leb_not_nan_r 0 v).
    + repeat split; try assumption; reflexivity.
  - change (Math_min 1 0) with 0. repeat split; try assumption; reflexivity.
Qed.

Lemma eqb_neg_infinity (e : float) :
  (e =? neg_infinity) = true -> not_negative e = false.
Proof.
  unfold not_negative. rewrite FloatAxioms.eqb_spec, ltb_spec.
  change (Prim2SF neg_infinity) with (S754_infinity true).
  rewrite Prim2SF_zero. unfold SFeqb, SFltb.
  destruct (Prim2SF e) as [s | s | | s m x]; cbn; try destruct s;
    intros H; try discriminate; reflexivity.
Qed.

Lemma pow_half_unit (m : Libm) (e : float) :
  faithful_pow m -> is_nan e = false -> not_negative e = true ->
  (0 <=? Math_pow_half m e) = true /\ (Math_pow_half m e <=? 1) = true.
Proof.
  intros Hm Hnan Hnn. unfold Math_pow_half. rewrite Hnan.
  destruct (e =? 0); [split; reflexivity |].
  destruct (e =? infinity); [split; reflexivity |].
  destruct (e =? neg_infinity) eqn:E.
  - apply eqb_neg_infinity in E. congruence.
  - apply Hm. destruct (nn_cases e Hnn); [congruence | assumption].
Qed.


(** ** Claims about the model on doubles *)

(** C1, as stated, fails on doubles: with a zero transversal and a tracking
    speed and signature radius whose product underflows to zero, the
    tracking ratio is [0 / 0] and the reported [hitChance] is NaN, which is
    not a value of [[0,1]].  The approximation of [Math.pow] plays no part:
    it is never called on NaN. *)
Lemma hitChance_underflow_nan :
  is_nan (trackingComponent (calculateHitChance libm_sample underflowing))
    = true
  /\ is_nan (hitChance (calculateHitChance libm_sample underflowing)) = true
  /\ (0 <=? hitChance (calculateHitChance libm_sample underflowing)) = false
  /\ (hitChance (calculateHitChance libm_sample underflowing) <=? 1) = false.
Proof. repeat split. Qed.

Example hitChance_underflow_any_libm (m : Libm) :
  is_nan (hitChance (calculateHitChance m underflowing)) = true.
Proof. reflexivity. Qed.

(** C1, amended.  For every parameter set of doubles, let [tc] be the
    tracking component and [rc] the range component computed from the
    inputs; the result reports them unchanged, and their sum is not below
    zero (a number [>= 0], [+Infinity], or NaN).  If the sum is NaN, the
    reported [hitChance] is NaN.  Otherwise, given that [Math.pow(0.5, x)]
    lies in [[0,1]] for [x >= 0], the reported [hitChance] equals
    [Math.pow(0.5, tc + rc)] (as [==] compares numbers: the clamp changes
    at most the sign of a zero) and lies in [[0,1]]. *)
Theorem hitChance_halving_law64 (m : Libm) (p : HitParams) :
  faithful_pow m ->
  let tc := calculateTrackingComponent
              (calculateAngularVelocity (transversal p) (distance p))
              (trackingSpeed p) (signatureRadius p) in
  let rc := calculateRangeComponent (distance p) (optimalRange p)
                                    (falloff p) in
  let r := calculateHitChance m p in
  trackingComponent r = tc /\ rangeComponent r = rc
  /\ not_negative (tc + rc) = true
  /\ (is_nan (tc + rc) = true -> is_nan (hitChance r) = true)
  /\ (is_nan (tc + rc) = false ->
      (hitChance r =? Math_pow_half m (tc + rc)) = true
      /\ (0 <=? hitChance r) = true /\ (hitChance r <=? 1) = true).
Proof.
  intros Hm. cbv zeta. unfold calculateHitChance.
  cbn [hitChance trackingComponent rangeComponent].
  set (tc := calculateTrackingComponent _ _ _).
  set (rc := calculateRangeComponent _ _ _).
  assert (Hnn : not_negative (tc + rc) = true)
    by (apply add_nn; [apply trackingComponent_nn | apply rangeComponent_nn]).
  split; [reflexivity |]. split; [reflexivity |]. split; [exact Hnn |].
  split; intros Hn.
  - unfold Math_pow_half. rewrite Hn. reflexivity.
  - destruct (pow_half_unit m _ Hm Hn Hnn) as [H0 H1].
    now apply clamp_unit64.
Qed.

Lemma hitChance_halving_law64_witness :
  faithful_pow libm_sample
  /\ (hitChance (calculateHitChance libm_sample stationary) =? 1) = true
  /\ (0 <=? hitChance (calculateHitChance libm_sample stationary)) = true
  /\ (hitChance (calculateHitChance libm_sample stationary) <=? 1) = true.
Proof.
  assert (Hm : faithful_pow libm_sample)
    by (intros x _; split; reflexivity).
  split; [exact Hm |].
  destruct (hitChance_halving_law64 libm_sample stationary Hm)
    as (_ & _ & _ & _ & H).
  apply H. vm_compute. reflexivity.
Defined.

(** C4, amended.  For every parameter set of doubles whose distance,
    tracking speed and signature radius are [>= 0], the result is not below
    zero: it is a number [>= 0], possibly [+Infinity], or it is NaN. *)
Theorem maxTransversal_not_negative (m : Libm) (p : MaxTransversalParams) :
  (0 <=? mt_distance p) = true ->
  (0 <=? mt_trackingSpeed p) = true ->
  (0 <=? mt_signatureRadius p) = true ->
  is_nan (calculateMaxTransversal m p) = true
  \/ (0 <=? calculateMaxTransversal m p) = true.
Proof.
  intros Hd Hts Hsr. apply nn_cases. now apply maxTransversal_nn.
Qed.

Lemma maxTransversal_not_negative_witness :
  is_nan (calculateMaxTransversal libm_sample orbiting) = true
  \/ (0 <=? calculateMaxTransversal libm_sample orbiting) = true.
Proof.
  apply (maxTransversal_not_negative libm_sample orbiting);
    vm_compute; reflexivity.
Defined.

(** NaN does occur under those conditions: tracking speed times signature
    radius overflows to [+Infinity], and the distance is zero. *)
Example maxTransversal_overflow_nan :
  (0 <=? mt_distance overflowing) = true
  /\ (0 <=? mt_trackingSpeed overflowing) = true
  /\ (0 <=? mt_signatureRadius overflowing) = true
  /\ is_nan (calculateMaxTransversal libm_sample overflowing) = true.
Proof. repeat split. Qed.

(** Without them the result can be below zero, on doubles as on reals. *)
Example maxTransversal_backwards :
  (calculateMaxTransversal libm_sample backwards <? 0) = true.
Proof. reflexivity. Qed.

End Calculator64Facts.

(* ================================================================== *)
(** * Properties of the matcher *)
(* ================================================================== *)

Module RegexFacts.
Import Regex.

Lemma str_eqb_eq (a b : jsstring) : str_eqb a b = true <-> a = b.
Proof.
  revert b. induction a as [| x a IH]; intros [| y b]; cbn; try easy.
  rewrite andb_true_iff, N.eqb_eq, IH. split.
  - intros [-> ->]. reflexivity.
  - intros H. injection H. auto.
Qed.

Lemma orElse_Some {A : Type} (a : option A) (b : unit -> option A) (x : A) :
  orElse a b = Some x -> a = Some x \/ b tt = Some x.
Proof.
  destruct a; cbn; intros H; [left | right]; assumption.
Qed.

Lemma stop_Some {A : Type} (lo : nat) (s : jsstring)
    (k : jsstring -> option A) (x : A) :
  stop lo s k = Some x -> lo = 0%nat /\ k s = Some x.
Proof.
  destruct lo; cbn; [auto | discriminate].
Qed.

(** A successful repetition consumed a run [w] of characters of the set,
    within the bounds, and the continuation succeeded on what is left. *)
Lemma rep_sound {A : Type} (g : bool) (p : cset) (k : jsstring -> option A)
    (a : A) (s : jsstring) :
  forall (lo : nat) (hi : option nat),
    rep g lo hi p s k = Some a ->
    exists w s',
      s = w ++ s' /\ forallb p w = true /\ (lo <= List.length w)%nat
      /\ match hi with Some h => (List.length w <= h)%nat | None => True end
      /\ k s' = Some a.
Proof.
  assert (Hstop : forall lo hi s0,
            stop lo s0 k = Some a ->
            exists w s',
              s0 = w ++ s' /\ forallb p w = true /\ (lo <= List.length w)%nat
              /\ match hi with
                 | Some h => (List.length w <= h)%nat
                 | None => True
                 end
              /\ k s' = Some a).
  { intros lo hi s0 H. apply stop_Some in H as [-> H].
    exists [], s0. cbn.
    split; [reflexivity |]. split; [reflexivity |]. split; [lia |].
    split; [destruct hi; [lia | exact I] | assumption]. }
  induction s as [| x s IH]; intros lo hi H; cbn in H.
  - now apply Hstop.
  - destruct (may_repeat hi && p x) eqn:E; [| now apply Hstop].
    apply andb_true_iff in E as [Ehi Epx].
    assert (Hmore : rep g (pred lo) (option_map pred hi) p s k = Some a ->
                    exists w s',
                      x :: s = w ++ s' /\ forallb p w = true
                      /\ (lo <= List.length w)%nat
                      /\ match hi with
                         | Some h => (List.length w <= h)%nat
                         | None => True
                         end
                      /\ k s' = Some a).
    { intros Hr. apply IH in Hr as (w & s' & -> & Hw & Hlo & Hhi & Hk).
      exists (x :: w), s'. cbn. rewrite Epx, Hw.
      split; [reflexivity |]. split; [reflexivity |]. split; [lia |].
      split; [| assumption].
      destruct hi as [[| h] |]; cbn in *; try discriminate; try lia. }
    destruct g; apply orElse_Some in H as [H | H]; auto; now apply Hstop.
Qed.

(** Soundness of the matcher for the declarative reading. *)
Lemma rmatch_sound {A : Type} (r : re) :
  forall (s : jsstring) (c : captures)
         (k : jsstring -> captures -> option A) (a : A),
    rmatch r s c k = Some a ->
    exists s' c', Matches r s s' /\ k s' c' = Some a.
Proof.
  induction r as [| p | r1 IH1 r2 IH2 | r1 IH1 r2 IH2 | g lo hi p | i r IH];
    intros s c k a H; cbn in H.
  - exists s, c. split; [constructor | assumption].
  - destruct s as [| x s]; [discriminate |].
    destruct (p x) eqn:E; [| discriminate].
    exists s, c. split; [now constructor | assumption].
  - apply IH1 in H as (s1 & c1 & M1 & H).
    apply IH2 in H as (s2 & c2 & M2 & H).
    exists s2, c2. split; [econstructor; eassumption | assumption].
  - apply orElse_Some in H as [H | H].
    + apply IH1 in H as (s' & c' & M & H).
      exists s', c'. split; [now apply M_AltL | assumption].
    + apply IH2 in H as (s' & c' & M & H).
      exists s', c'. split; [now apply M_AltR | assumption].
  - apply rep_sound in H as (w & s' & -> & Hw & Hlo & Hhi & H).
    exists s', c. split; [now constructor | assumption].
  - apply IH in H as (s' & c' & M & H).
    eexists s', _. split; [constructor; eassumption | eassumption].
Qed.

(** A successful search found the pattern at some offset of the input. *)
Lemma exec_sound (r : re) (s : jsstring) (c : captures) :
  exec r s = Some c ->
  exists pre s0 s', s = pre ++ s0 /\ Matches r s0 s'.
Proof.
  induction s as [| x s IH]; cbn.
  - destruct (match_here r []) as [[s' c'] |] eqn:E; [| discriminate].
    intros _. unfold match_here in E.
    apply rmatch_sound in E as (s1 & c1 & M & _).
    exists [], [], s1. split; [reflexivity | assumption].
  - destruct (match_here r (x :: s)) as [[s' c'] |] eqn:E.
    + intros _. unfold match_here in E.
      apply rmatch_sound in E as (s1 & c1 & M & _).
      exists [], (x :: s), s1. split; [reflexivity | assumption].
    + intros H. apply IH in H as (pre & s0 & s1 & -> & M).
      exists (x :: pre), s0, s1. split; [reflexivity | assumption].
Qed.

(** A successful match keeps the captures it started with and binds every
    group that lies on all paths of the pattern. *)
Lemma rmatch_binds {A : Type} (r : re) :
  forall (s : jsstring) (c : captures)
         (k : jsstring -> captures -> option A) (a : A),
    rmatch r s c k = Some a ->
    exists s' c',
      k s' c' = Some a
      /\ (forall j, capture c j <> None -> capture c' j <> None)
      /\ (forall j, binds j r = true -> capture c' j <> None).
Proof.
  induction r as [| p | r1 IH1 r2 IH2 | r1 IH1 r2 IH2 | g lo hi p | i r IH];
    intros s c k a H; cbn in H.
  - exists s, c. cbn. repeat split; auto; discriminate.
  - destruct s as [| x s]; [discriminate |].
    destruct (p x); [| discriminate].
    exists s, c. cbn. repeat split; auto; discriminate.
  - apply IH1 in H as (s1 & c1 & H & Hk1 & Hb1).
    apply IH2 in H as (s2 & c2 & H & Hk2 & Hb2).
    exists s2, c2. split; [assumption |]. split; [auto |].
    intros j Hj. cbn in Hj. apply orb_true_iff in Hj as [Hj | Hj]; auto.
  - apply orElse_Some in H as [H | H].
    + apply IH1 in H as (s' & c' & H & Hk & Hb).
      exists s', c'. split; [assumption |]. split; [auto |].
      intros j Hj. cbn in Hj. apply andb_true_iff in Hj as [Hj _]. auto.
    + apply IH2 in H as (s' & c' & H & Hk & Hb).
      exists s', c'. split; [assumption |]. split; [auto |].
      intros j Hj. cbn in Hj. apply andb_true_iff in Hj as [_ Hj]. auto.
  - apply rep_sound in H as (w & s' & _ & _ & _ & _ & H).
    exists s', c. cbn. repeat split; auto; discriminate.
  - apply IH in H as (s' & c' & H & Hk & Hb).
    exists s', ((i, consumed s s') :: c'). split; [assumption |].
    split; intros j Hj; cbn [capture]; destruct (Nat.eqb j i) eqn:E;
      try discriminate; auto.
    cbn in Hj. rewrite E in Hj. auto.
Qed.

(** In a match found by [exec], the groups on all paths took part. *)
Lemma exec_binds (r : re) (s : jsstring) (m : captures) (i : nat) :
  exec r s = Some m -> binds i r = true ->
  exists text, capture m i = Some text /\ group m i = text.
Proof.
  intros H Hb.
  assert (Hc : capture m i <> None).
  { induction s as [| x s IH]; cbn in H.
    - destruct (match_here r []) as [[s' c'] |] eqn:E; [| discriminate].
      injection H as <-. unfold match_here in E.
      apply rmatch_binds in E as (s1 & c1 & E & _ & Hc).
      injection E as _ <-. auto.
    - destruct (match_here r (x :: s)) as [[s' c'] |] eqn:E; [| auto].
      injection H as <-. unfold match_here in E.
      apply rmatch_binds in E as (s1 & c1 & E & _ & Hc).
      injection E as _ <-. auto. }
  unfold group. destruct (capture m i) as [text |]; [| contradiction].
  now exists text.
Qed.

Lemma space_stamp_char (x : char) : space x = true -> stamp_char x = true.
Proof.
  intros H. unfold stamp_char. rewrite H. apply orb_true_r.
Qed.

(** Whatever the line pattern matches begins with a bracketed block and a
    parenthesized channel type. *)
Lemma LOG_LINE_block (s s' : jsstring) :
  Matches LOG_LINE_REGEX s s' ->
  exists w sp ty post,
    s = chr "[" :: w ++ chr "]" :: sp ++ chr "(" :: ty ++ chr ")" :: post
    /\ w <> [] /\ forallb stamp_char w = true
    /\ forallb space sp = true
    /\ ty <> [] /\ forallb word ty = true.
Proof.
  unfold LOG_LINE_REGEX, seq, star, plus. cbn [fold_right]. intros M.
  inversion M as [| | ? ? ? s1 ? M1 Mrest | | | |]; subst; clear M.
  inversion M1 as [| p x ? Hx | | | | |]; subst; clear M1.
  inversion Mrest as [| | ? ? ? s2 ? M2 Mrest' | | | |]; subst; clear Mrest.
  inversion M2 as [| | | | | ? ? ? ? w1 ? Hw1 _ _ |]; subst; clear M2.
  inversion Mrest' as [| | ? ? ? s3 ? M3 Mrest | | | |]; subst; clear Mrest'.
  inversion M3 as [| | | | | ? ? ? ? w2 ? Hw2 Hlen _ |]; subst; clear M3.
  inversion Mrest as [| | ? ? ? s4 ? M4 Mrest' | | | |]; subst; clear Mrest.
  inversion M4 as [| p y ? Hy | | | | |]; subst; clear M4.
  inversion Mrest' as [| | ? ? ? s5 ? M5 Mrest | | | |]; subst; clear Mrest'.
  inversion M5 as [| | | | | ? ? ? ? sp ? Hsp _ _ |]; subst; clear M5.
  inversion Mrest as [| | ? ? ? s6 ? M6 Mrest' | | | |]; subst; clear Mrest.
  inversion M6 as [| p z ? Hz | | | | |]; subst; clear M6.
  inversion Mrest' as [| | ? ? ? s7 ? M7 Mrest | | | |]; subst; clear Mrest'.
  inversion M7 as [| | | | | | ? ? ? ? M7'];  subst; clear M7.
  inversion M7' as [| | | | | ? ? ? ? ty ? Hty Htylen _ |]; subst; clear M7'.
  inversion Mrest as [| | ? ? ? s8 ? M8 _ | | | |]; subst; clear Mrest.
  inversion M8 as [| p u ? Hu | | | | |]; subst; clear M8.
  unfold only in Hx, Hy, Hz, Hu. apply N.eqb_eq in Hx, Hy, Hz, Hu. subst x y z u.
  exists (w1 ++ w2), sp, ty, s8. repeat split.
  - now rewrite <- app_assoc.
  - destruct w2; [cbn in Hlen; lia |]. now destruct w1.
  - rewrite forallb_app, Hw2, andb_true_r.
    apply forallb_forall. intros x Hin. apply space_stamp_char.
    rewrite forallb_forall in Hw1. now apply Hw1.
  - assumption.
  - destruct ty; [cbn in Htylen; lia | discriminate].
  - assumption.
Qed.

Lemma exec_LOG_LINE_stamp_block (line : jsstring) (c : captures) :
  exec LOG_LINE_REGEX line = Some c -> has_stamp_block line.
Proof.
  intros H. apply exec_sound in H as (pre & s0 & s' & -> & M).
  apply LOG_LINE_block in M as (w & sp & ty & post & -> & H).
  exists pre, w, sp, ty, post. split; [reflexivity | assumption].
Qed.

Lemma stamp_block_bracket (line : jsstring) :
  has_stamp_block line -> In (chr "[") line.
Proof.
  intros (pre & w & sp & ty & post & -> & _). apply in_or_app. right. now left.
Qed.

(** [split_lf] cuts exactly at the line feeds. *)
Lemma split_lf_nonempty (s : jsstring) : split_lf s <> [].
Proof.
  destruct s as [| x s]; cbn; [discriminate |].
  destruct (x =? 10)%N; [discriminate |].
  destruct (split_lf s); discriminate.
Qed.

Lemma join_split_lf (s : jsstring) : join_lf (split_lf s) = s.
Proof.
  induction s as [| x s IH]; [reflexivity |]. cbn [split_lf].
  destruct (x =? 10)%N eqn:E.
  - apply N.eqb_eq in E. subst x.
    pose proof (split_lf_nonempty s) as Hne.
    cbn [join_lf]. destruct (split_lf s) as [| l ls]; [contradiction |].
    cbn [app]. now rewrite IH.
  - pose proof (split_lf_nonempty s) as Hne.
    destruct (split_lf s) as [| l ls]; [contradiction |].
    cbn [join_lf] in *. destruct ls; cbn [app]; now rewrite <- IH.
Qed.

Lemma split_lf_no_lf (s : jsstring) :
  Forall (fun l => ~ In 10%N l) (split_lf s).
Proof.
  induction s as [| x s IH]; cbn [split_lf].
  - constructor; [intros [] | constructor].
  - destruct (x =? 10)%N eqn:E.
    + constructor; [intros [] | assumption].
    + apply N.eqb_neq in E.
      destruct (split_lf s) as [| l ls]; [constructor; [| constructor] |].
      * intros [H | []]. now subst.
      * inversion IH as [| ? ? Hl Hls]; subst. constructor; [| assumption].
        intros [H | H]; [now subst | contradiction].
Qed.

End RegexFacts.

(* ================================================================== *)
(** * Properties of the log pipeline *)
(* ================================================================== *)

Module LogParserFacts.
Import Regex RegexFacts LogParser.

Section ParserFacts.
Variable newDate : number -> number -> number -> number -> number -> number
                   -> Date.

(** ** The shape of a parsed line *)

Lemma parseCombatLine_Some (line : jsstring) (event : Event) :
  parseCombatLine newDate line = Some event <->
  exists content,
    line_shape line = Some (str "combat", content)
    /\ event = event_of newDate line content.
Proof.
  unfold parseCombatLine, line_shape, event_of.
  destruct (exec LOG_LINE_REGEX line) as [m |]; cbn zeta.
  - destruct (str_eqb (group m 1) (str "combat")) eqn:E; cbn [negb].
    + apply str_eqb_eq in E. rewrite E. split.
      * intros H. injection H as <-. now eexists.
      * intros (content & H & ->). injection H as <-. reflexivity.
    + split; [discriminate |].
      intros (content & H & _). injection H as H _.
      apply str_eqb_eq in H. congruence.
  - split; [discriminate | intros (content & H & _); discriminate].
Qed.

Lemma parseCombatLine_no_shape (line : jsstring) :
  line_shape line = None -> parseCombatLine newDate line = None.
Proof.
  unfold parseCombatLine, line_shape.
  destruct (exec LOG_LINE_REGEX line); [discriminate | reflexivity].
Qed.

Lemma parseCombatLine_other_channel (line channel content : jsstring) :
  line_shape line = Some (channel, content) ->
  channel <> str "combat" ->
  parseCombatLine newDate line = None.
Proof.
  unfold parseCombatLine, line_shape.
  destruct (exec LOG_LINE_REGEX line) as [m |]; [| discriminate].
  intros H Hne. injection H as <- _.
  destruct (str_eqb (group m 1) (str "combat")) eqn:E; [| reflexivity].
  apply str_eqb_eq in E. contradiction.
Qed.

(** ** What each update touches *)

Lemma type_extract_hitQuality (c : jsstring) (e : Event) :
  type (extract_hitQuality c e) = type e.
Proof. unfold extract_hitQuality. now destruct (exec _ c). Qed.

Lemma type_extract_weapon (c : jsstring) (e : Event) :
  type (extract_weapon c e) = type e.
Proof. unfold extract_weapon. now destruct (exec _ c). Qed.

Lemma type_check_miss (c : jsstring) (e : Event) :
  type (check_miss c e) = if matchesb MISS_REGEX c then miss else type e.
Proof. unfold check_miss, matchesb. now destruct (exec _ c). Qed.

Lemma type_check_damage_received (c : jsstring) (e : Event) :
  type (check_damage_received c e) =
  if matchesb DAMAGE_RECEIVED_REGEX c then damage_received else type e.
Proof. unfold check_damage_received, matchesb. now destruct (exec _ c). Qed.

Lemma type_check_damage_dealt (c : jsstring) (e : Event) :
  type (check_damage_dealt c e) =
  if matchesb DAMAGE_DEALT_REGEX c then damage_dealt else type e.
Proof. unfold check_damage_dealt, matchesb. now destruct (exec _ c). Qed.

Lemma type_event_of (line content : jsstring) :
  type (event_of newDate line content) = latest_rule content.
Proof.
  unfold event_of, latest_rule.
  rewrite type_extract_hitQuality, type_extract_weapon, type_check_miss,
    type_check_damage_received, type_check_damage_dealt.
  reflexivity.
Qed.

(** The classified fields of the event, read off the three searches. *)
Lemma fields_event_of (line content : jsstring) :
  let e := event_of newDate line content in
  let dealt := exec DAMAGE_DEALT_REGEX content in
  let received := exec DAMAGE_RECEIVED_REGEX content in
  let missed := exec MISS_REGEX content in
  damage e =
    match received, dealt with
    | Some dr, _ => Some (parseInt (group dr 1))
    | None, Some dd => Some (parseInt (group dd 1))
    | None, None => None
    end
  /\ target e =
    match missed, dealt with
    | Some m, _ =>
        Some (if truthy (group m 1) then stripTags (group m 1)
              else str "you")
    | None, Some dd => Some (stripTags (group dd 3))
    | None, None => None
    end
  /\ source e =
    match received with
    | Some dr => Some (stripTags (group dr 2))
    | None => None
    end.
Proof.
  cbv zeta.
  unfold event_of, extract_hitQuality, extract_weapon, check_miss,
    check_damage_received, check_damage_dealt.
  destruct (exec HIT_QUALITY_REGEX content), (exec WEAPON_REGEX content),
    (exec MISS_REGEX content), (exec DAMAGE_RECEIVED_REGEX content),
    (exec DAMAGE_DEALT_REGEX content); cbn; repeat split.
Qed.

(** ** The loop of [parseLogContent] *)

Lemma push_line_contribution (events : list Event) (line : jsstring) :
  push_line newDate events line = events ++ contribution newDate line.
Proof.
  unfold push_line, contribution.
  destruct (parseCombatLine newDate line) as [e |];
    [| now rewrite app_nil_r].
  destruct (type e); cbn; now rewrite ?app_nil_r.
Qed.

Lemma fold_push_line (lines : list jsstring) :
  forall events,
    fold_left (push_line newDate) lines events =
    events ++ flat_map (contribution newDate) lines.
Proof.
  induction lines as [| line lines IH]; intros events; cbn.
  - now rewrite app_nil_r.
  - rewrite IH, push_line_contribution, <- app_assoc. reflexivity.
Qed.

Lemma contribution_classified (line : jsstring) (e : Event) :
  In e (contribution newDate line) ->
  parseCombatLine newDate line = Some e
  /\ (type e = damage_dealt \/ type e = damage_received \/ type e = miss).
Proof.
  unfold contribution.
  destruct (parseCombatLine newDate line) as [e' |]; [| intros []].
  destruct (type e') eqn:E; cbn; intros H;
    [contradiction | destruct H as [<- | []]; rewrite E; auto ..].
Qed.

(** ** Claims about the line parser *)

(** C5.  Every event returned for a combat line carries the type of the
    latest matching rule in source order: miss if the miss pattern matches
    the content, else damage_received if that pattern matches, else
    damage_dealt if that pattern matches, else unknown. *)
Theorem classification_precedence (line : jsstring) (event : Event) :
  parseCombatLine newDate line = Some event ->
  exists content,
    line_shape line = Some (str "combat", content)
    /\ type event = latest_rule content.
Proof.
  intros H. apply parseCombatLine_Some in H as (content & Hs & ->).
  exists content. split; [assumption | apply type_event_of].
Qed.

(** C9, amended.  A later rule overwrites only the fields it sets.  On a
    content matching the damage-dealt and the miss pattern the event is a
    miss that still carries a damage field, with the target of the miss
    rule; on a content matching the damage-dealt and the damage-received
    pattern and not the miss pattern, the event is a damage_received that
    still carries the target of the damage-dealt rule next to its
    source. *)
Theorem reclassified_keeps_fields (line : jsstring) (event : Event) :
  parseCombatLine newDate line = Some event ->
  exists content,
    line_shape line = Some (str "combat", content)
    /\ (forall dd m,
          exec DAMAGE_DEALT_REGEX content = Some dd ->
          exec MISS_REGEX content = Some m ->
          type event = miss
          /\ damage event =
             Some (parseInt
                     (group (match exec DAMAGE_RECEIVED_REGEX content with
                             | Some dr => dr
                             | None => dd
                             end) 1))
          /\ target event =
             Some (if truthy (group m 1) then stripTags (group m 1)
                   else str "you"))
    /\ (forall dd dr,
          exec DAMAGE_DEALT_REGEX content = Some dd ->
          exec DAMAGE_RECEIVED_REGEX content = Some dr ->
          exec MISS_REGEX content = None ->
          type event = damage_received
          /\ damage event = Some (parseInt (group dr 1))
          /\ target event = Some (stripTags (group dd 3))
          /\ source event = Some (stripTags (group dr 2))).
Proof.
  intros H. apply parseCombatLine_Some in H as (content & Hs & ->).
  exists content. split; [assumption |].
  pose proof (type_event_of line content) as Ht.
  destruct (fields_event_of line content) as (Hd & Htg & Hsrc).
  unfold latest_rule, matchesb in Ht.
  split.
  - intros dd m Edd Em. rewrite Edd, Em in *.
    repeat split; try assumption.
    rewrite Hd. now destruct (exec DAMAGE_RECEIVED_REGEX content).
  - intros dd dr Edd Edr Em. rewrite Edd, Edr, Em in *.
    repeat split; assumption.
Qed.

(** C8.  [parseLogContent] cuts the text at the line feeds, and its result
    is the concatenation, in line order, of what each line contributes on
    its own: the event of the line when [parseCombatLine] returns one whose
    type is damage_dealt, damage_received or miss, nothing otherwise.  A
    line without the line shape, or with a channel type other than
    "combat", is mapped to null by [parseCombatLine] and contributes
    nothing. *)
Theorem parseLogContent_lines (content : jsstring) :
  join_lf (split_lf content) = content
  /\ Forall (fun l => ~ In 10%N l) (split_lf content)
  /\ parseLogContent newDate content =
     flat_map (contribution newDate) (split_lf content)
  /\ Forall (fun e => type e = damage_dealt \/ type e = damage_received
                      \/ type e = miss)
            (parseLogContent newDate content)
  /\ (forall line,
        line_shape line = None ->
        parseCombatLine newDate line = None
        /\ contribution newDate line = [])
  /\ (forall line channel c,
        line_shape line = Some (channel, c) ->
        channel <> str "combat" ->
        parseCombatLine newDate line = None
        /\ contribution newDate line = []).
Proof.
  assert (E : parseLogContent newDate content =
              flat_map (contribution newDate) (split_lf content)).
  { unfold parseLogContent. cbv zeta. now rewrite fold_push_line. }
  split; [apply join_split_lf |]. split; [apply split_lf_no_lf |].
  split; [exact E |]. split; [| split].
  - rewrite E. apply Forall_forall. intros e Hin.
    apply in_flat_map in Hin as (line & _ & Hin).
    now apply contribution_classified in Hin.
  - intros line H. apply parseCombatLine_no_shape in H.
    unfold contribution. now rewrite H.
  - intros line channel c H Hne.
    apply (parseCombatLine_other_channel _ _ _ H) in Hne.
    unfold contribution. now rewrite Hne.
Qed.

(** C10, amended.  A line that has, at no offset, a bracketed block of
    digits, dots, colons and white space in front of a parenthesized
    channel type is mapped to null, whatever else it contains. *)
Theorem line_without_stamp_block (line : jsstring) :
  ~ has_stamp_block line -> parseCombatLine newDate line = None.
Proof.
  intros Hn. apply parseCombatLine_no_shape. unfold line_shape.
  destruct (exec LOG_LINE_REGEX line) as [m |] eqn:E; [| reflexivity].
  apply exec_LOG_LINE_stamp_block in E. contradiction.
Qed.

End ParserFacts.

(** The groups that the source passes to [parseInt] and [stripTags] without
    a test take part in every match of their pattern. *)
Lemma read_groups_bound :
  binds 1 LOG_LINE_REGEX = true /\ binds 2 LOG_LINE_REGEX = true
  /\ binds 1 DAMAGE_DEALT_REGEX = true /\ binds 3 DAMAGE_DEALT_REGEX = true
  /\ binds 1 DAMAGE_RECEIVED_REGEX = true
  /\ binds 2 DAMAGE_RECEIVED_REGEX = true
  /\ binds 1 WEAPON_REGEX = true /\ binds 1 HIT_QUALITY_REGEX = true
  /\ forallb (fun i => binds i TIMESTAMP_REGEX) [1; 2; 3; 4; 5; 6]%nat = true.
Proof. repeat split. Qed.

(** A line without any opening bracket has no such block. *)
Lemma no_bracket_no_block (line : jsstring) :
  forallb (fun x => negb (x =? chr "[")%N) line = true ->
  ~ has_stamp_block line.
Proof.
  intros H Hp. apply stamp_block_bracket in Hp.
  rewrite forallb_forall in H. apply H in Hp.
  now rewrite N.eqb_refl in Hp.
Qed.

(** C9, as stated, fails in its second example: the content of
    [line_all_three] matches the damage-dealt and the damage-received
    pattern, and the event is not a damage_received carrying the
    damage-dealt target ["Alpha"]: the miss pattern matches as well, so the
    event is a miss whose target is ["you"]. *)
Lemma dealt_received_reclassified :
  exists content dd dr,
    line_shape line_all_three = Some (str "combat", content)
    /\ exec DAMAGE_DEALT_REGEX content = Some dd
    /\ exec DAMAGE_RECEIVED_REGEX content = Some dr
    /\ parseCombatLine sampleDate line_all_three = Some event_all_three
    /\ type event_all_three = miss
    /\ type event_all_three <> damage_received
    /\ stripTags (group dd 3) = str "Alpha"
    /\ target event_all_three = Some (str "you")
    /\ target event_all_three <> Some (stripTags (group dd 3)).
Proof.
  do 3 eexists.
  split; [vm_compute; reflexivity |].
  split; [vm_compute; reflexivity |].
  split; [vm_compute; reflexivity |].
  split; [vm_compute; reflexivity |].
  split; [reflexivity |].
  split; [discriminate |].
  split; [vm_compute; reflexivity |].
  split; [reflexivity |].
  vm_compute. discriminate.
Qed.

(** The content of [line_all_three] matches all three patterns. *)
Example all_three_match :
  exists content,
    line_shape line_all_three = Some (str "combat", content)
    /\ matchesb DAMAGE_DEALT_REGEX content = true
    /\ matchesb DAMAGE_RECEIVED_REGEX content = true
    /\ matchesb MISS_REGEX content = true.
Proof.
  eexists. split; [vm_compute; reflexivity |].
  repeat split; vm_compute; reflexivity.
Qed.

(** C10, as stated, fails: the line pattern is not anchored, so the
    bracketed block need not lead the line.  [line_offset_stamp] starts
    with ["x"], has no leading block, and is parsed to a miss event. *)
Lemma offset_stamp_accepted :
  hd_error line_offset_stamp = Some (chr "x")
  /\ ~ has_leading_stamp_block line_offset_stamp
  /\ parseCombatLine sampleDate line_offset_stamp =
     Some (mkEvent None line_offset_stamp miss None (Some (str "you"))
                   None None None).
Proof.
  split; [reflexivity |]. split; [| vm_compute; reflexivity].
  intros (w & sp & ty & post & E & _). discriminate E.
Qed.

Lemma classification_precedence_witness :
  exists content,
    line_shape line_all_three = Some (str "combat", content)
    /\ type event_all_three = latest_rule content.
Proof.
  apply (classification_precedence sampleDate line_all_three event_all_three).
  vm_compute. reflexivity.
Defined.

Lemma reclassified_keeps_fields_witness :
  (exists content,
     line_shape line_dealt_miss = Some (str "combat", content)
     /\ matchesb DAMAGE_DEALT_REGEX content = true
     /\ matchesb MISS_REGEX content = true
     /\ type event_dealt_miss = miss
     /\ damage event_dealt_miss = Some (Num 50)
     /\ target event_dealt_miss = Some (str "Beta"))
  /\ (exists content,
        line_shape line_dealt_received = Some (str "combat", content)
        /\ matchesb DAMAGE_DEALT_REGEX content = true
        /\ matchesb DAMAGE_RECEIVED_REGEX content = true
        /\ type event_dealt_received = damage_received
        /\ target event_dealt_received = Some (str "Alpha")
        /\ source event_dealt_received = Some (str "Gamma")).
Proof.
  split.
  - destruct (reclassified_keeps_fields sampleDate line_dealt_miss
                event_dealt_miss) as (content & Hs & Hmiss & _);
      [vm_compute; reflexivity |].
    exists content. split; [exact Hs |].
    vm_compute in Hs. injection Hs as <-.
    destruct (exec DAMAGE_DEALT_REGEX _) as [dd |] eqn:Edd in Hmiss |- *;
      [| vm_compute in Edd; discriminate].
    destruct (exec MISS_REGEX _) as [m |] eqn:Em in Hmiss |- *;
      [| vm_compute in Em; discriminate].
    destruct (Hmiss dd m eq_refl eq_refl) as (Ht & _ & _).
    unfold matchesb. rewrite Edd, Em.
    repeat split; try exact Ht; reflexivity.
  - destruct (reclassified_keeps_fields sampleDate line_dealt_received
                event_dealt_received) as (content & Hs & _ & Hrecv);
      [vm_compute; reflexivity |].
    exists content. split; [exact Hs |].
    vm_compute in Hs. injection Hs as <-.
    destruct (exec DAMAGE_DEALT_REGEX _) as [dd |] eqn:Edd in Hrecv |- *;
      [| vm_compute in Edd; discriminate].
    destruct (exec DAMAGE_RECEIVED_REGEX _) as [dr |] eqn:Edr in Hrecv |- *;
      [| vm_compute in Edr; discriminate].
    destruct (Hrecv dd dr eq_refl eq_refl) as (Ht & _ & _ & _);
      [vm_compute; reflexivity |].
    unfold matchesb. rewrite Edd, Edr.
    repeat split; try exact Ht; reflexivity.
Defined.

Lemma line_without_stamp_block_witness :
  parseCombatLine sampleDate line_no_stamp = None.
Proof.
  apply (line_without_stamp_block sampleDate line_no_stamp).
  apply no_bracket_no_block. vm_compute. reflexivity.
Defined.

(** ** The reducer *)

Lemma fold_shotsHit (events : list Event) :
  forall st,
    shotsHit (fold_left stats_step events st) =
    (shotsHit st + count_type damage_dealt events)%nat.
Proof.
  unfold count_type.
  induction events as [| e events IH]; intros st; cbn [fold_left filter].
  - cbn. lia.
  - rewrite IH. unfold stats_step. destruct (type e); cbn; lia.
Qed.

Lemma fold_shotsMissed (events : list Event) :
  forall st,
    shotsMissed (fold_left stats_step events st) =
    (shotsMissed st + count_type miss events)%nat.
Proof.
  unfold count_type.
  induction events as [| e events IH]; intros st; cbn [fold_left filter].
  - cbn. lia.
  - rewrite IH. unfold stats_step. destruct (type e); cbn; lia.
Qed.

(** The loop never assigns [dps]. *)
Lemma fold_dps (events : list Event) :
  forall st, dps (fold_left stats_step events st) = dps st.
Proof.
  induction events as [| e events IH]; intros st; cbn [fold_left].
  - reflexivity.
  - rewrite IH. unfold stats_step. now destruct (type e).
Qed.

Lemma dps_finish (st : Stats) :
  dps st = None ->
  dps (finish st) =
  match ts_start (timespan st), ts_end (timespan st) with
  | Some s, Some e =>
      Some (if num_gtb (durationSeconds s e) (Num 0)
            then num_div (totalDamageDealt st) (durationSeconds s e)
            else Num 0)
  | _, _ => None
  end.
Proof.
  intros H. unfold finish. cbn [dps]. rewrite H.
  destruct (ts_start (timespan st)), (ts_end (timespan st)); reflexivity.
Qed.

(** ** Claims about the reducer *)

(** C6.  [shotsHit] counts the damage_dealt events and [shotsMissed] the
    miss events, so their sum is the number of events of these two types
    (damage_received events count for neither); [hitRate] is
    [shotsHit / (shotsHit + shotsMissed) * 100], and 0 when there is no
    shot. *)
Theorem stats_shot_accounting (events : list Event) :
  let s := calculateStats events in
  shotsHit s = count_type damage_dealt events
  /\ shotsMissed s = count_type miss events
  /\ (shotsHit s + shotsMissed s)%nat =
     (count_type damage_dealt events + count_type miss events)%nat
  /\ hitRate s =
     if ((shotsHit s + shotsMissed s)%nat =? 0)%nat then Num 0
     else num_mul (num_div (of_nat (shotsHit s))
                           (of_nat (shotsHit s + shotsMissed s)))
                  (Num 100).
Proof.
  cbv zeta. unfold calculateStats.
  set (st := fold_left stats_step events initial_stats).
  assert (Eh : shotsHit st = count_type damage_dealt events)
    by (unfold st; rewrite fold_shotsHit; reflexivity).
  assert (Em : shotsMissed st = count_type miss events)
    by (unfold st; rewrite fold_shotsMissed; reflexivity).
  unfold finish. cbn [shotsHit shotsMissed hitRate].
  rewrite <- Eh, <- Em. repeat split.
  destruct (shotsHit st + shotsMissed st)%nat; reflexivity.
Qed.

(** C7, as stated, fails: a single timestamped event sets both endpoints to
    the same instant; the span is not strictly positive, yet [dps] is
    defined, with value 0. *)
Lemma dps_defined_on_empty_span :
  dps (calculateStats [lone_hit]) = Some (Num 0)
  /\ ts_start (timespan (calculateStats [lone_hit])) = Some stamp_date
  /\ ts_end (timespan (calculateStats [lone_hit])) = Some stamp_date
  /\ ~ span_positive (timespan (calculateStats [lone_hit])).
Proof.
  repeat split; try (vm_compute; reflexivity).
  vm_compute. discriminate.
Qed.

(** C7, amended.  [dps] is defined exactly when both endpoints of the
    timespan are set; it is then [totalDamageDealt] divided by the span in
    seconds when that span is strictly positive, and 0 otherwise.  For the
    empty list [dps] is undefined and both endpoints are null. *)
Theorem dps_defined_iff_span_known (events : list Event) :
  let s := calculateStats events in
  (dps s <> None <->
   ts_start (timespan s) <> None /\ ts_end (timespan s) <> None)
  /\ (forall a b,
        ts_start (timespan s) = Some a -> ts_end (timespan s) = Some b ->
        dps s =
        Some (if num_gtb (durationSeconds a b) (Num 0)
              then num_div (totalDamageDealt s) (durationSeconds a b)
              else Num 0))
  /\ dps (calculateStats []) = None
  /\ timespan (calculateStats []) = mkTimespan None None.
Proof.
  cbv zeta. unfold calculateStats at 1 2 3 4 5 6 7.
  set (st := fold_left stats_step events initial_stats).
  assert (E : dps st = None) by (unfold st; now rewrite fold_dps).
  rewrite (dps_finish st E).
  change (timespan (finish st)) with (timespan st).
  change (totalDamageDealt (finish st)) with (totalDamageDealt st).
  split; [| split; [| split; reflexivity]].
  - destruct (ts_start (timespan st)), (ts_end (timespan st));
      split; try (intros [? ?]); try congruence; try discriminate.
    intros _. split; discriminate.
  - intros a b -> ->. reflexivity.
Qed.

Lemma dps_defined_iff_span_known_witness :
  exists q,
    dps (calculateStats [lone_hit; later_hit]) = Some (Num q) /\ q == 40.
Proof.
  destruct (dps_defined_iff_span_known [lone_hit; later_hit])
    as (_ & H & _).
  rewrite (H stamp_date (num_add stamp_date (Num 2000)))
    by (vm_compute; reflexivity).
  eexists. split; [vm_compute; reflexivity | reflexivity].
Defined.

End LogParserFacts.


(* ================================================================== *)
(** * Further properties of the hit-chance model *)
(* ================================================================== *)

Module CalculatorMore.
Import Calculator CalculatorFacts.
Local Open Scope R_scope.

(** X2.  Inside optimal range the range component is 0 whatever the
    falloff, [isInOptimal] is set, and [isInFalloff] is set as soon as the
    falloff is not negative. *)
Theorem inside_optimal (t d ts sr o f : R) :
  d <= o ->
  let r := calculateHitChance (realHit t d ts sr o f) in
  rangeComponent r = Fin 0 /\ isInOptimal r = true
  /\ (0 <= f -> isInFalloff r = true).
Proof.
  intros H. cbv zeta. unfold calculateHitChance, realHit.
  cbn [rangeComponent isInOptimal isInFalloff distance optimalRange falloff].
  repeat split.
  - rewrite rangeComponent_real.
    destruct (Rle_dec f 0); [destruct (Rlt_dec o d); [lra | reflexivity] |].
    destruct (Rle_dec (d - o) 0); [| lra]. f_equal. unfold Rdiv. ring.
  - apply leb_Fin. assumption.
  - intros Hf. cbn [add]. apply leb_Fin. lra.
Qed.

Lemma inside_optimal_witness :
  rangeComponent (calculateHitChance (realHit 0 5000 1 1 10000 5000)) = Fin 0.
Proof.
  apply (inside_optimal 0 5000 1 1 10000 5000). lra.
Defined.

(** X11.  A target hit chance of exactly 1 always yields positive infinity,
    whatever the real parameters: its exponent budget is never positive. *)
Theorem maxTransversal_certain_target (d ts sr o f : R) :
  calculateMaxTransversal (realMax 1 d ts sr o f) = PInf.
Proof.
  destruct (rangeComponent_cases d o f) as [(rc & E & Hrc) | E].
  - apply (maxTransversal_no_budget 1 d ts sr o f rc); [lra | assumption |].
    rewrite ln_1. unfold Rdiv. rewrite Rmult_0_l. lra.
  - apply maxTransversal_range_infinite; [lra | assumption].
Qed.

End CalculatorMore.


(* ================================================================== *)
(** * Further properties of the log pipeline *)
(* ================================================================== *)

Module RegexMore.
Import Regex RegexFacts.

Lemma consumed_app (w s' : jsstring) : consumed (w ++ s') s' = w.
Proof.
  unfold consumed. rewrite length_app.
  replace (List.length w + List.length s' - List.length s')%nat
    with (List.length w + 0)%nat by lia.
  rewrite firstn_app_2. cbn. apply app_nil_r.
Qed.

(** What a quantified character set consumed. *)
Lemma Matches_Rep_consumed (g : bool) (lo : nat) (hi : option nat)
    (p : cset) (s s' : jsstring) :
  Matches (Rep g lo hi p) s s' ->
  forallb p (consumed s s') = true
  /\ (lo <= List.length (consumed s s'))%nat
  /\ match hi with
     | Some h => (List.length (consumed s s') <= h)%nat
     | None => True
     end.
Proof.
  intros M. inversion M as [| | | | | ? ? ? ? w ? Hw Hlo Hhi |]; subst.
  rewrite consumed_app. repeat split; assumption.
Qed.

Lemma Matches_plus_run (p : cset) (s s' : jsstring) :
  Matches (plus p) s s' -> run_of p (consumed s s').
Proof.
  intros M. apply Matches_Rep_consumed in M as (Hp & Hlo & _).
  split; [| assumption].
  destruct (consumed s s'); [cbn in Hlo; lia | discriminate].
Qed.

Lemma Matches_exactly (n : nat) (p : cset) (s s' : jsstring) :
  Matches (exactly n p) s s' ->
  forallb p (consumed s s') = true /\ List.length (consumed s s') = n.
Proof.
  intros M. apply Matches_Rep_consumed in M as (Hp & Hlo & Hhi).
  split; [assumption | lia].
Qed.

(** A successful match only adds captures allowed by [respects]. *)
Lemma rmatch_respects {A : Type} (Q : nat -> jsstring -> Prop) (r : re) :
  respects Q r ->
  forall (s : jsstring) (c : captures)
         (k : jsstring -> captures -> option A) (a : A),
    (forall j t, capture c j = Some t -> Q j t) ->
    rmatch r s c k = Some a ->
    exists s' c',
      Matches r s s' /\ k s' c' = Some a
      /\ (forall j t, capture c' j = Some t -> Q j t).
Proof.
  induction r as [| p | r1 IH1 r2 IH2 | r1 IH1 r2 IH2 | g lo hi p | i r IH];
    intros HQ s c k a Hc H; cbn in H.
  - exists s, c. repeat split; [constructor | assumption..].
  - destruct s as [| x s]; [discriminate |].
    destruct (p x) eqn:E; [| discriminate].
    exists s, c. repeat split; [now constructor | assumption..].
  - destruct HQ as [HQ1 HQ2].
    apply (IH1 HQ1 _ _ _ _ Hc) in H as (s1 & c1 & M1 & H & Hc1).
    apply (IH2 HQ2 _ _ _ _ Hc1) in H as (s2 & c2 & M2 & H & Hc2).
    exists s2, c2. repeat split; [econstructor; eassumption | assumption..].
  - destruct HQ as [HQ1 HQ2]. apply orElse_Some in H as [H | H].
    + apply (IH1 HQ1 _ _ _ _ Hc) in H as (s' & c' & M & H & Hc').
      exists s', c'. repeat split; [now apply M_AltL | assumption..].
    + apply (IH2 HQ2 _ _ _ _ Hc) in H as (s' & c' & M & H & Hc').
      exists s', c'. repeat split; [now apply M_AltR | assumption..].
  - apply rep_sound in H as (w & s' & -> & Hw & Hlo & Hhi & H).
    exists s', c. repeat split; [now constructor | assumption..].
  - destruct HQ as [HQi HQr].
    apply (IH HQr _ _ _ _ Hc) in H as (s' & c' & M & H & Hc').
    exists s', ((i, consumed s s') :: c').
    split; [now constructor |]. split; [assumption |].
    intros j t. cbn [capture]. destruct (Nat.eqb j i) eqn:E.
    + apply Nat.eqb_eq in E. subst j. intros Ht. injection Ht as <-.
      now apply HQi.
    + apply Hc'.
Qed.

Lemma match_here_respects (Q : nat -> jsstring -> Prop) (r : re)
    (s rest : jsstring) (m : captures) :
  respects Q r -> match_here r s = Some (rest, m) ->
  forall j t, capture m j = Some t -> Q j t.
Proof.
  intros HQ H. unfold match_here in H.
  apply (rmatch_respects Q r HQ) in H as (s1 & c1 & _ & E & Hc);
    [| intros j t; discriminate].
  injection E as _ <-. exact Hc.
Qed.

(** The captures of a match found by [exec] satisfy what the pattern
    guarantees for its groups. *)
Lemma exec_respects (Q : nat -> jsstring -> Prop) (r : re)
    (s : jsstring) (m : captures) :
  respects Q r -> exec r s = Some m ->
  forall j t, capture m j = Some t -> Q j t.
Proof.
  intros HQ. induction s as [| x s IH]; cbn; intros H.
  - destruct (match_here r []) as [[rest c] |] eqn:E; [| discriminate].
    injection H as <-. now apply (match_here_respects Q r [] rest c).
  - destruct (match_here r (x :: s)) as [[rest c] |] eqn:E; [| auto].
    injection H as <-. now apply (match_here_respects Q r (x :: s) rest c).
Qed.

(** A group bound on every path holds a text with the guaranteed
    property. *)
Lemma exec_group (Q : nat -> jsstring -> Prop) (r : re)
    (s : jsstring) (m : captures) (i : nat) :
  respects Q r -> binds i r = true -> exec r s = Some m -> Q i (group m i).
Proof.
  intros HQ Hb H.
  destruct (exec_binds r s m i H Hb) as (t & Ht & ->).
  now apply (exec_respects Q r s m HQ H).
Qed.

End RegexMore.

Module LogParserMore.
Import Regex RegexFacts RegexMore LogParser LogParserFacts.

(** ** Lines *)

Lemma split_lf_app (a b : jsstring) :
  split_lf (a ++ 10%N :: b) = split_lf a ++ split_lf b.
Proof.
  induction a as [| x a IH]; [reflexivity |].
  cbn [app split_lf]. destruct (x =? 10)%N.
  - now rewrite IH.
  - rewrite IH. pose proof (split_lf_nonempty a) as Hne.
    destruct (split_lf a); [contradiction | reflexivity].
Qed.

Lemma split_lf_length (s : jsstring) :
  List.length (split_lf s) = S (count_lf s).
Proof.
  unfold count_lf. induction s as [| x s IH]; [reflexivity |].
  cbn [split_lf filter]. destruct (x =? 10)%N.
  - cbn [List.length]. now rewrite IH.
  - pose proof (split_lf_nonempty s) as Hne.
    destruct (split_lf s); [contradiction | exact IH].
Qed.

Section PipelineFacts.
Variable newDate : number -> number -> number -> number -> number -> number
                   -> Date.

Lemma parseLogContent_flat_map (content : jsstring) :
  parseLogContent newDate content =
  flat_map (contribution newDate) (split_lf content).
Proof.
  unfold parseLogContent. cbv zeta. now rewrite fold_push_line.
Qed.

Lemma contribution_length (line : jsstring) :
  (List.length (contribution newDate line) <= 1)%nat.
Proof.
  unfold contribution. destruct (parseCombatLine newDate line) as [e |];
    [destruct (type e) |]; cbn; lia.
Qed.

Lemma flat_map_contribution_length (lines : list jsstring) :
  (List.length (flat_map (contribution newDate) lines)
   <= List.length lines)%nat.
Proof.
  induction lines as [| l lines IH]; cbn; [lia |].
  rewrite length_app. pose proof (contribution_length l). lia.
Qed.

Lemma raw_event_of (line content : jsstring) :
  raw (event_of newDate line content) = line
  /\ timestamp (event_of newDate line content) = parseTimestamp newDate line.
Proof.
  unfold event_of, extract_hitQuality, extract_weapon, check_miss,
    check_damage_received, check_damage_dealt.
  destruct (exec HIT_QUALITY_REGEX content), (exec WEAPON_REGEX content),
    (exec MISS_REGEX content), (exec DAMAGE_RECEIVED_REGEX content),
    (exec DAMAGE_DEALT_REGEX content); split; reflexivity.
Qed.

(** X12.  Texts compose: the events of two texts joined by a line feed are
    the events of the first followed by the events of the second. *)
Theorem parseLogContent_concat (a b : jsstring) :
  parseLogContent newDate (a ++ 10%N :: b) =
  parseLogContent newDate a ++ parseLogContent newDate b.
Proof.
  rewrite !parseLogContent_flat_map, split_lf_app. apply flat_map_app.
Qed.

(** X13.  The empty text yields no event, and a text never yields more
    events than it has lines, that is one more than its line feeds. *)
Theorem parseLogContent_bounds (content : jsstring) :
  parseLogContent newDate [] = []
  /\ (List.length (parseLogContent newDate content)
      <= S (count_lf content))%nat.
Proof.
  split; [reflexivity |].
  rewrite parseLogContent_flat_map, <- split_lf_length.
  apply flat_map_contribution_length.
Qed.

(** X14.  Every returned event keeps the line it came from: [raw] is one of
    the lines of the text, contains no line feed, and parsing it again gives
    the same event back, whose timestamp is that of the line. *)
Theorem parsed_event_reparses (content : jsstring) (e : Event) :
  In e (parseLogContent newDate content) ->
  parseCombatLine newDate (raw e) = Some e
  /\ In (raw e) (split_lf content)
  /\ ~ In 10%N (raw e)
  /\ timestamp e = parseTimestamp newDate (raw e).
Proof.
  rewrite parseLogContent_flat_map. intros H.
  apply in_flat_map in H as (line & Hline & He).
  apply contribution_classified in He as [Hp _].
  pose proof Hp as Hp'.
  apply parseCombatLine_Some in Hp' as (c & _ & ->).
  destruct (raw_event_of line c) as [Er Et]. rewrite Er, Et.
  repeat split; try assumption.
  pose proof (split_lf_no_lf content) as Hno.
  rewrite Forall_forall in Hno. now apply Hno.
Qed.

End PipelineFacts.

Lemma parsed_event_reparses_witness :
  parseCombatLine sampleDate (raw event_dealt_miss) = Some event_dealt_miss
  /\ In (raw event_dealt_miss)
        (split_lf (line_no_stamp ++ 10%N :: line_dealt_miss))
  /\ ~ In 10%N (raw event_dealt_miss)
  /\ timestamp event_dealt_miss
     = parseTimestamp sampleDate (raw event_dealt_miss).
Proof.
  apply (parsed_event_reparses sampleDate
           (line_no_stamp ++ 10%N :: line_dealt_miss) event_dealt_miss).
  vm_compute. left. reflexivity.
Defined.

(** ** Totals *)

Lemma fold_totals (events : list Event) :
  forall st,
    totalDamageDealt (fold_left stats_step events st) =
    fold_left (fun acc e => num_add acc (to_number (damage e)))
              (filter (fun e => EventType_eqb (type e) damage_dealt) events)
              (totalDamageDealt st)
    /\ totalDamageReceived (fold_left stats_step events st) =
       fold_left (fun acc e => num_add acc (to_number (damage e)))
                 (filter (fun e => EventType_eqb (type e) damage_received)
                         events)
                 (totalDamageReceived st).
Proof.
  induction events as [| e events IH]; intros st; cbn [fold_left filter].
  - split; reflexivity.
  - destruct (IH (stats_step st e)) as [E1 E2]. rewrite E1, E2.
    unfold stats_step. destruct (type e); cbn; split; reflexivity.
Qed.





(** ** The hit rate *)

Lemma hit_ratio_bounds (h m : nat) :
  (0 < h + m)%nat ->
  0 <= inject_Z (Z.of_nat h) / inject_Z (Z.of_nat (h + m)) * 100 <= 100.
Proof.
  intros Hpos.
  assert (Hd : 0 < inject_Z (Z.of_nat (h + m))).
  { change 0 with (inject_Z 0). rewrite <- Zlt_Qlt. lia. }
  assert (Hn : 0 <= inject_Z (Z.of_nat h)).
  { change 0 with (inject_Z 0). rewrite <- Zle_Qle. lia. }
  assert (Hle : inject_Z (Z.of_nat h) <= inject_Z (Z.of_nat (h + m))).
  { rewrite <- Zle_Qle. lia. }
  assert (H0 : 0 <= inject_Z (Z.of_nat h) / inject_Z (Z.of_nat (h + m))).
  { apply Qle_shift_div_l; [assumption |]. now rewrite Qmult_0_l. }
  assert (H1 : inject_Z (Z.of_nat h) / inject_Z (Z.of_nat (h + m)) <= 1).
  { apply Qle_shift_div_r; [assumption |]. now rewrite Qmult_1_l. }
  split.
  - apply Qmult_le_0_compat; [assumption | discriminate].
  - setoid_replace 100 with (1 * 100) at 2 by reflexivity.
    apply Qmult_le_compat_r; [assumption | discriminate].
Qed.

(** X16.  The hit rate is always a number between 0 and 100, and it is 0
    when no damage_dealt event was seen. *)
Theorem hitRate_bounds (events : list Event) :
  exists q,
    hitRate (calculateStats events) = Num q /\ 0 <= q <= 100
    /\ (count_type damage_dealt events = 0%nat -> q == 0).
Proof.
  unfold calculateStats.
  set (st := fold_left stats_step events initial_stats).
  assert (Eh : shotsHit st = count_type damage_dealt events)
    by (unfold st; rewrite fold_shotsHit; reflexivity).
  unfold finish. cbn [hitRate]. rewrite <- Eh.
  destruct (0 <? shotsHit st + shotsMissed st)%nat eqn:E.
  - apply Nat.ltb_lt in E. eexists. split; [reflexivity |].
    split; [now apply hit_ratio_bounds |].
    intros ->. unfold Qdiv. now rewrite !Qmult_0_l.
  - exists 0. split; [reflexivity |]. split; [| reflexivity].
    split; discriminate.
Qed.

(** ** The observed time span *)

Lemma num_ltb_lt (a b : Q) : num_ltb (Num a) (Num b) = true <-> a < b.
Proof.
  cbn. rewrite negb_true_iff. split.
  - intros H. apply Qnot_le_lt. intros Hle.
    apply Qle_bool_iff in Hle. congruence.
  - intros H. destruct (Qle_bool b a) eqn:E; [| reflexivity].
    apply Qle_bool_iff in E. exfalso. now apply (Qlt_not_le a b).
Qed.

Lemma num_ltb_ge (a b : Q) : num_ltb (Num a) (Num b) = false <-> b <= a.
Proof.
  cbn. rewrite negb_false_iff. apply Qle_bool_iff.
Qed.

Lemma track_first (q : Q) (e : Event) :
  timestamp e = Some (Num q) ->
  track_timespan (mkTimespan None None) e
  = mkTimespan (Some (Num q)) (Some (Num q)).
Proof. intros H. unfold track_timespan. now rewrite H. Qed.

Lemma track_next (s e q : Q) (ev : Event) :
  timestamp ev = Some (Num q) ->
  track_timespan (mkTimespan (Some (Num s)) (Some (Num e))) ev
  = mkTimespan (Some (Num (if num_ltb (Num q) (Num s) then q else s)))
               (Some (Num (if num_ltb (Num e) (Num q) then q else e))).
Proof.
  intros H. unfold track_timespan. rewrite H.
  cbn [ts_start ts_end unset_or]. unfold num_gtb.
  destruct (num_ltb (Num q) (Num s)); cbn [ts_start ts_end unset_or];
    destruct (num_ltb (Num e) (Num q)); reflexivity.
Qed.

Lemma span_step (t : Timespan) (seen : list Q) (ev : Event) (q : Q) :
  span_of t seen -> timestamp ev = Some (Num q) ->
  span_of (track_timespan t ev) (seen ++ [q]).
Proof.
  intros Hs Hq. destruct seen as [| q0 seen].
  - cbn in Hs. subst t. rewrite (track_first q) by assumption.
    cbn. exists q, q. split; [reflexivity |].
    split; [now left |]. split; [now left |].
    intros q' [<- | []]. split; apply Qle_refl.
  - destruct Hs as (s & e & -> & Hins & Hine & Hb).
    rewrite (track_next s e q) by assumption.
    change ((q0 :: seen) ++ [q]) with (q0 :: (seen ++ [q])).
    cbn [span_of].
    exists (if num_ltb (Num q) (Num s) then q else s),
           (if num_ltb (Num e) (Num q) then q else e).
    split; [reflexivity |].
    assert (Hin : forall x, In x (q0 :: seen) -> In x (q0 :: seen ++ [q])).
    { intros x Hx. change (In x ((q0 :: seen) ++ [q])).
      apply in_or_app. now left. }
    assert (Hq' : In q (q0 :: seen ++ [q])).
    { change (In q ((q0 :: seen) ++ [q])). apply in_or_app. right. now left. }
    assert (Hse : s <= e).
    { destruct (Hb s Hins) as [_ H]. exact H. }
    split; [destruct (num_ltb (Num q) (Num s)); auto |].
    split; [destruct (num_ltb (Num e) (Num q)); auto |].
    intros x Hx. change (In x ((q0 :: seen) ++ [q])) in Hx.
    apply in_app_or in Hx as [Hx | [<- | []]].
    + destruct (Hb x Hx) as [H1 H2]. split.
      * destruct (num_ltb (Num q) (Num s)) eqn:E; [| assumption].
        apply num_ltb_lt in E. apply Qlt_le_weak in E.
        now apply Qle_trans with s.
      * destruct (num_ltb (Num e) (Num q)) eqn:E; [| assumption].
        apply num_ltb_lt in E. apply Qlt_le_weak in E.
        now apply Qle_trans with e.
    + split.
      * destruct (num_ltb (Num q) (Num s)) eqn:E; [apply Qle_refl |].
        now apply num_ltb_ge in E.
      * destruct (num_ltb (Num e) (Num q)) eqn:E; [apply Qle_refl |].
        now apply num_ltb_ge in E.
Qed.

Lemma fold_timespan (events : list Event) :
  forall st,
    timespan (fold_left stats_step events st) =
    fold_left track_timespan events (timespan st).
Proof.
  induction events as [| e events IH]; intros st; cbn [fold_left].
  - reflexivity.
  - rewrite IH. unfold stats_step. now destruct (type e).
Qed.

Lemma fold_span (events : list Event) :
  Forall (fun e => timestamp e <> Some NaN) events ->
  forall t seen,
    span_of t seen ->
    span_of (fold_left track_timespan events t) (seen ++ stamps events).
Proof.
  induction 1 as [| ev events Hev _ IH]; intros t seen Hs;
    cbn [fold_left stamps].
  - now rewrite app_nil_r.
  - destruct (timestamp ev) as [[| q] |] eqn:E.
    + contradiction.
    + replace (seen ++ q :: stamps events)
        with ((seen ++ [q]) ++ stamps events)
        by (now rewrite <- app_assoc).
      apply IH. now apply span_step.
    + apply IH. unfold track_timespan. now rewrite E.
Qed.

(** X17.  When no event carries an invalid date, the timespan is empty if
    no event has a timestamp, and otherwise runs from the least to the
    greatest time value seen, whatever the order and the types of the
    events. *)
Theorem timespan_extremes (events : list Event) :
  Forall (fun e => timestamp e <> Some NaN) events ->
  span_of (timespan (calculateStats events)) (stamps events).
Proof.
  intros H. unfold calculateStats.
  change (timespan (finish ?st)) with (timespan st).
  rewrite fold_timespan.
  apply (fold_span events H (mkTimespan None None) []). reflexivity.
Qed.

Lemma timespan_extremes_witness :
  span_of (timespan (calculateStats [later_hit; lone_hit]))
          (stamps [later_hit; lone_hit]).
Proof.
  apply (timespan_extremes [later_hit; lone_hit]).
  repeat constructor; discriminate.
Defined.

(** ** What the patterns guarantee for their groups *)

Lemma digit_range (x : char) : digit x = true -> (48 <= x <= 57)%N.
Proof.
  unfold digit, in_range. rewrite andb_true_iff, !N.leb_le. tauto.
Qed.

Lemma digit_cases (x : char) :
  digit x = true ->
  In x [48; 49; 50; 51; 52; 53; 54; 55; 56; 57]%N.
Proof.
  intros H. apply digit_range in H. cbn.
  assert (x = 48 \/ x = 49 \/ x = 50 \/ x = 51 \/ x = 52 \/ x = 53 \/ x = 54
          \/ x = 55 \/ x = 56 \/ x = 57)%N by lia.
  intuition auto.
Qed.

Lemma digit_value_digit (x : char) :
  digit x = true ->
  digit_value 10 x = Some (x - 48)%N /\ (x - 48 < 10)%N.
Proof.
  intros H. unfold digit_value. rewrite H. apply digit_range in H.
  assert (Hlt : (x - 48 < 10)%N) by lia.
  apply N.ltb_lt in Hlt. rewrite Hlt. split; [reflexivity | now apply N.ltb_lt].
Qed.

Lemma leading_digits_bound (w : jsstring) :
  forallb digit w = true ->
  forall a, exists n,
    leading_digits 10 w (Some a) = Some n
    /\ (n < (a + 1) * 10 ^ N.of_nat (List.length w))%N.
Proof.
  induction w as [| x w IH]; intros Hw a.
  - exists a. split; [reflexivity |]. cbn. lia.
  - cbn in Hw. apply andb_true_iff in Hw as [Hx Hw].
    destruct (digit_value_digit x Hx) as [E Hd].
    cbn [leading_digits]. rewrite E.
    destruct (IH Hw (10 * a + (x - 48))%N) as (n & En & Hn).
    exists n. split; [exact En |].
    cbn [List.length]. rewrite Nat2N.inj_succ, N.pow_succ_r'. nia.
Qed.

Lemma parseInt_digits (w : jsstring) :
  run_of digit w ->
  exists n, parseInt w = natural n /\ (n < 10 ^ N.of_nat (List.length w))%N.
Proof.
  intros [Hne Hw]. destruct w as [| x w]; [contradiction |]. clear Hne.
  cbn in Hw. apply andb_true_iff in Hw as [Hx Hw].
  destruct (digit_value_digit x Hx) as [E Hd].
  destruct (leading_digits_bound w Hw (x - 48)%N) as (n & En & Hn).
  assert (El : leading_digits 10 (x :: w) None = Some n).
  { cbn [leading_digits]. rewrite E.
    replace (10 * 0 + (x - 48))%N with (x - 48)%N by lia. exact En. }
  exists n. split.
  - unfold parseInt, natural.
    assert (Hsecond : forall y t, w = y :: t ->
               ((y =? 120) || (y =? 88))%N = false).
    { intros y t ->. cbn in Hw. apply andb_true_iff in Hw as [Hy _].
      apply digit_range in Hy. apply orb_false_iff.
      split; apply N.eqb_neq; lia. }
    destruct (digit_cases x Hx) as
      [<- | [<- | [<- | [<- | [<- | [<- | [<- | [<- | [<- | [<- | []]]]]]]]]]];
      cbn [trim_start space in_range N.leb N.eqb N.compare Pos.compare
           Pos.compare_cont andb orb Pos.eqb];
      try (rewrite El; reflexivity).
    destruct w as [| y t].
    + rewrite El. reflexivity.
    + rewrite (Hsecond y t eq_refl). rewrite El. reflexivity.
  - cbn [List.length]. rewrite Nat2N.inj_succ, N.pow_succ_r'. nia.
Qed.

Ltac solve_respects :=
  cbn;
  repeat match goal with
  | |- _ /\ _ => split
  | |- True => exact I
  | |- forall s s', Matches _ s s' -> _ =>
      let M := fresh "M" in
      intros ? ? M;
      first [ apply Matches_plus_run in M; exact M
            | apply Matches_exactly in M; exact M ]
  end.

Lemma respects_damage_dealt :
  respects (fun i t => run_of (if Nat.eqb i 3 then except "<" else digit) t)
           DAMAGE_DEALT_REGEX.
Proof. solve_respects. Qed.

Lemma respects_damage_received :
  respects (fun i t => run_of (if Nat.eqb i 2 then except "<" else digit) t)
           DAMAGE_RECEIVED_REGEX.
Proof. solve_respects. Qed.

Lemma respects_miss :
  respects (fun _ t => run_of (except "<") t) MISS_REGEX.
Proof. solve_respects. Qed.

Lemma respects_weapon :
  respects (fun _ t => run_of (except "<") t) WEAPON_REGEX.
Proof. solve_respects. Qed.


(** ** Tag removal and trimming *)
Lemma delete_from_incl (r : re) (s : jsstring) :
  forall skip x, In x (delete_from r s skip) -> In x s.
Proof.
  induction s as [| y s IH]; intros skip x; cbn [delete_from]; [auto |].
  destruct skip as [| n].
  - destruct (match_here r (y :: s)) as [[rest c] |].
    + destruct (List.length (y :: s) - List.length rest)%nat.
      * intros [<- | H]; [now left | right; eauto].
      * intros H. right. eauto.
    + intros [<- | H]; [now left | right; eauto].
  - intros H. right. eauto.
Qed.

Lemma trim_start_suffix (s : jsstring) :
  exists sp, s = sp ++ trim_start s.
Proof.
  induction s as [| x s (sp & IH)]; [now exists [] |].
  cbn [trim_start]. destruct (space x).
  - exists (x :: sp). cbn. now rewrite <- IH.
  - now exists [].
Qed.

Lemma trim_start_head (s : jsstring) (x : char) (rest : jsstring) :
  trim_start s = x :: rest -> space x = false.
Proof.
  induction s as [| y s IH]; cbn [trim_start]; [discriminate |].
  destruct (space y) eqn:E; [exact IH |].
  intros H. injection H as <- _. exact E.
Qed.

Lemma trim_incl (s : jsstring) (x : char) : In x (trim s) -> In x s.
Proof.
  unfold trim. intros H. apply in_rev in H.
  destruct (trim_start_suffix (rev (trim_start s))) as (sp & E).
  assert (H1 : In x (rev (trim_start s)))
    by (rewrite E; apply in_or_app; now right).
  apply in_rev in H1.
  destruct (trim_start_suffix s) as (sp' & E').
  rewrite E'. apply in_or_app. now right.
Qed.

Lemma trim_trimmed (s : jsstring) : trimmed (trim s).
Proof.
  unfold trim. set (z := trim_start s). set (y := trim_start (rev z)).
  split.
  - intros x rest H.
    assert (Ey : y = rev rest ++ [x]).
    { rewrite <- (rev_involutive y), H. reflexivity. }
    destruct (trim_start_suffix (rev z)) as (sp & E). fold y in E.
    assert (Ez : z = x :: rev (sp ++ rev rest)).
    { rewrite <- (rev_involutive z), E, Ey, app_assoc, rev_app_distr.
      reflexivity. }
    now apply (trim_start_head s x (rev (sp ++ rev rest))).
  - intros front x H.
    assert (Ey : y = x :: rev front).
    { rewrite <- (rev_involutive y), H, rev_app_distr. reflexivity. }
    now apply (trim_start_head (rev z) x (rev front)).
Qed.

Lemma stripTags_clean (s : jsstring) :
  (forall x, In x (stripTags s) -> In x s) /\ trimmed (stripTags s).
Proof.
  unfold stripTags, delete_all. split; [| apply trim_trimmed].
  intros x H. apply trim_incl in H. now apply delete_from_incl in H.
Qed.

Lemma run_except_no (a : ascii) (t : jsstring) :
  run_of (except a) t -> ~ In (chr a) t.
Proof.
  intros [_ H] Hin. rewrite forallb_forall in H. apply H in Hin.
  unfold except in Hin. now rewrite N.eqb_refl in Hin.
Qed.

Lemma you_clean : ~ In (chr "<") (str "you") /\ trimmed (str "you").
Proof.
  split.
  - cbn. intros [H | [H | [H | []]]]; discriminate.
  - split.
    + intros x rest H. injection H as <- _. reflexivity.
    + intros front x H.
      assert (E : rev (str "you") = x :: rev front)
        by (rewrite H, rev_app_distr; reflexivity).
      injection E as <- _. reflexivity.
Qed.

(** ** Keywords *)
Lemma Matches_suffix (r : re) (s s' : jsstring) :
  Matches r s s' -> exists w, s = w ++ s'.
Proof.
  induction 1 as [s | p x s Hx | r1 r2 s s1 s2 _ (w1 & ->) _ (w2 & ->)
                  | r1 r2 s s' _ IH | r1 r2 s s' _ IH
                  | g lo hi p w s Hw Hlo Hhi | i r s s' _ IH].
  - now exists [].
  - now exists [x].
  - exists (w1 ++ w2). now rewrite app_assoc.
  - exact IH.
  - exact IH.
  - now exists w.
  - exact IH.
Qed.

Lemma fold_lower (x : char) (a : ascii) :
  in_range 97%N 122%N (chr a) = true -> is_i a x = true ->
  (if in_range 65%N 90%N x then x + 32 else x)%N = chr a.
Proof.
  unfold is_i, canonicalize. intros Ha. rewrite Ha.
  unfold in_range in *. apply andb_true_iff in Ha as [H1 H2].
  apply N.leb_le in H1, H2. intros H.
  destruct ((97 <=? x) && (x <=? 122))%N eqn:E.
  - apply N.eqb_eq in H. apply andb_true_iff in E as [E1 E2].
    apply N.leb_le in E1, E2.
    assert (E90 : (x <=? 90)%N = false) by (apply N.leb_gt; lia).
    rewrite E90, andb_false_r. lia.
  - apply N.eqb_eq in H.
    assert (E65 : ((65 <=? x) && (x <=? 90))%N = true).
    { apply andb_true_iff. split; apply N.leb_le; lia. }
    rewrite E65. lia.
Qed.

Lemma Matches_lit_i (l : list ascii) :
  forallb (fun a => in_range 97%N 122%N (chr a)) l = true ->
  forall s s',
    Matches (seq (map (fun a => Chr (is_i a)) l)) s s' ->
    toLowerCase (consumed s s') = map N_of_ascii l.
Proof.
  induction l as [| a l IH]; intros Hl s s' M; cbn in M.
  - inversion M; subst. unfold consumed. now rewrite Nat.sub_diag.
  - cbn in Hl. apply andb_true_iff in Hl as [Ha Hl].
    inversion M as [| | ? ? ? s1 ? M1 M2 | | | |]; subst.
    inversion M1 as [| p x ? Hx | | | | |]; subst.
    pose proof (IH Hl _ _ M2) as E.
    destruct (Matches_suffix _ _ _ M2) as (w & ->).
    rewrite consumed_app in E.
    change (x :: w ++ s') with ((x :: w) ++ s'). rewrite consumed_app.
    cbn [toLowerCase map]. unfold toLowerCase in E. rewrite E.
    f_equal. now apply fold_lower.
Qed.

Lemma Matches_keyword (w : string) (s s' : jsstring) :
  forallb (fun a => in_range 97%N 122%N (chr a)) (list_ascii_of_string w) = true ->
  Matches (lit_i w) s s' -> toLowerCase (consumed s s') = str w.
Proof.
  intros Hw M. unfold lit_i in M. now apply Matches_lit_i.
Qed.

Lemma respects_hit_quality :
  respects (fun _ t => In (toLowerCase t) hit_qualities) HIT_QUALITY_REGEX.
Proof.
  unfold HIT_QUALITY_REGEX, alts. cbn [fold_left respects]. split.
  - intros s s' M. unfold hit_qualities.
    repeat match goal with
    | H : Matches (Alt _ _) _ _ |- _ => inversion H; subst; clear H
    end;
    match goal with
    | H : Matches (lit_i ?w) _ _ |- _ =>
        apply (Matches_keyword w) in H; [rewrite H | reflexivity]
    end; cbn; tauto.
  - cbn. tauto.
Qed.

Section ParsedFields.
Variable newDate : number -> number -> number -> number -> number -> number
                   -> Date.

Lemma extras_event_of (line content : jsstring) :
  weapon (event_of newDate line content) =
    match exec WEAPON_REGEX content with
    | Some m => Some (stripTags (group m 1))
    | None => None
    end
  /\ hitQuality (event_of newDate line content) =
    match exec HIT_QUALITY_REGEX content with
    | Some m => Some (toLowerCase (group m 1))
    | None => None
    end.
Proof.
  unfold event_of, extract_hitQuality, extract_weapon, check_miss,
    check_damage_received, check_damage_dealt.
  destruct (exec HIT_QUALITY_REGEX content), (exec WEAPON_REGEX content),
    (exec MISS_REGEX content), (exec DAMAGE_RECEIVED_REGEX content),
    (exec DAMAGE_DEALT_REGEX content); split; reflexivity.
Qed.

Lemma dealt_amount (content : jsstring) (m : captures) :
  exec DAMAGE_DEALT_REGEX content = Some m ->
  exists n, parseInt (group m 1) = natural n.
Proof.
  intros H.
  pose proof (exec_group _ _ _ _ 1%nat respects_damage_dealt eq_refl H) as Hg.
  destruct (parseInt_digits _ Hg) as (n & E & _). now exists n.
Qed.

Lemma received_amount (content : jsstring) (m : captures) :
  exec DAMAGE_RECEIVED_REGEX content = Some m ->
  exists n, parseInt (group m 1) = natural n.
Proof.
  intros H.
  pose proof (exec_group _ _ _ _ 1%nat respects_damage_received eq_refl H)
    as Hg.
  destruct (parseInt_digits _ Hg) as (n & E & _). now exists n.
Qed.

Lemma damage_event_of (line content : jsstring) :
  let e := event_of newDate line content in
  (forall v, damage e = Some v -> exists n, v = natural n)
  /\ (type e = damage_dealt \/ type e = damage_received ->
      exists n, damage e = Some (natural n)).
Proof.
  cbv zeta.
  destruct (fields_event_of newDate line content) as (Hd & _ & _).
  pose proof (type_event_of newDate line content) as Ht.
  unfold latest_rule, matchesb in Ht. rewrite Hd, Ht. clear Hd Ht.
  destruct (exec DAMAGE_RECEIVED_REGEX content) as [dr |] eqn:Er.
  - destruct (received_amount content dr Er) as (n & ->). split.
    + intros v Hv. injection Hv as <-. now exists n.
    + intros _. now exists n.
  - destruct (exec DAMAGE_DEALT_REGEX content) as [dd |] eqn:Ed.
    + destruct (dealt_amount content dd Ed) as (n & ->). split.
      * intros v Hv. injection Hv as <-. now exists n.
      * intros _. now exists n.
    + split; [discriminate |].
      destruct (exec MISS_REGEX content); intros [H | H]; discriminate.
Qed.



Lemma clean_capture (t : jsstring) :
  run_of (except "<") t ->
  ~ In (chr "<") (stripTags t) /\ trimmed (stripTags t).
Proof.
  intros Hr. destruct (stripTags_clean t) as [Hin Htr].
  split; [| assumption]. intros H. apply Hin in H.
  now apply (run_except_no "<" t).
Qed.

(** X19.  Names never carry markup: the target, source and weapon of a
    parsed event contain no ["<"] and neither start nor end with white
    space. *)
Theorem names_are_clean (line : jsstring) (e : Event) (name : jsstring) :
  parseCombatLine newDate line = Some e ->
  target e = Some name \/ source e = Some name \/ weapon e = Some name ->
  ~ In (chr "<") name /\ trimmed name.
Proof.
  intros H. apply parseCombatLine_Some in H as (content & _ & ->).
  destruct (fields_event_of newDate line content) as (_ & Htg & Hsrc).
  destruct (extras_event_of line content) as (Hw & _).
  rewrite Htg, Hsrc, Hw. clear Htg Hsrc Hw.
  intros [H | [H | H]].
  - destruct (exec MISS_REGEX content) as [m |] eqn:Em.
    + injection H as <-. destruct (truthy (group m 1)) eqn:Et;
        [| apply you_clean].
      apply clean_capture. unfold group in *.
      destruct (capture m 1) as [t |] eqn:Ec; [| discriminate].
      apply (exec_respects _ _ _ _ respects_miss Em 1%nat t Ec).
    + destruct (exec DAMAGE_DEALT_REGEX content) as [dd |] eqn:Ed;
        [| discriminate].
      injection H as <-. apply clean_capture.
      apply (exec_group _ _ _ _ 3%nat respects_damage_dealt eq_refl Ed).
  - destruct (exec DAMAGE_RECEIVED_REGEX content) as [dr |] eqn:Er;
      [| discriminate].
    injection H as <-. apply clean_capture.
    apply (exec_group _ _ _ _ 2%nat respects_damage_received eq_refl Er).
  - destruct (exec WEAPON_REGEX content) as [m |] eqn:Em; [| discriminate].
    injection H as <-. apply clean_capture.
    apply (exec_group _ _ _ _ 1%nat respects_weapon eq_refl Em).
Qed.

(** X20.  The hit quality of a parsed event, when present, is one of the
    six keywords in lower case. *)
Theorem hitQuality_keyword (line : jsstring) (e : Event) (q : jsstring) :
  parseCombatLine newDate line = Some e ->
  hitQuality e = Some q -> In q hit_qualities.
Proof.
  intros H. apply parseCombatLine_Some in H as (content & _ & ->).
  destruct (extras_event_of line content) as (_ & Hq). rewrite Hq.
  destruct (exec HIT_QUALITY_REGEX content) as [m |] eqn:Em; [| discriminate].
  intros H. injection H as <-.
  apply (exec_group _ _ _ _ 1%nat respects_hit_quality eq_refl Em).
Qed.



End ParsedFields.


Lemma names_are_clean_witness :
  ~ In (chr "<") (str "Gamma") /\ trimmed (str "Gamma").
Proof.
  apply (names_are_clean sampleDate line_full event_full (str "Gamma")).
  - vm_compute. reflexivity.
  - right. left. reflexivity.
Defined.

Lemma hitQuality_keyword_witness : In (str "smashes") hit_qualities.
Proof.
  apply (hitQuality_keyword sampleDate line_full event_full).
  - vm_compute. reflexivity.
  - reflexivity.
Defined.


(** ** The parse-log handler *)

Lemma length_by_type (events : list Event) :
  Forall (fun e => type e = damage_dealt \/ type e = damage_received
                   \/ type e = miss) events ->
  List.length events =
  (count_type damage_dealt events + count_type miss events
   + count_type damage_received events)%nat.
Proof.
  unfold count_type.
  induction 1 as [| e events He _ IH]; [reflexivity |].
  cbn [List.length filter]. rewrite IH.
  destruct He as [-> | [-> | ->]]; cbn; lia.
Qed.

Lemma natural_nonneg (n : N) : 0 <= inject_Z (Z.of_N n).
Proof. change 0 with (inject_Z 0). rewrite <- Zle_Qle. lia. Qed.

Lemma fold_add_natural (l : list Event) :
  Forall (fun e => exists n, damage e = Some (natural n)) l ->
  forall q0, 0 <= q0 ->
    exists q,
      fold_left (fun acc e => num_add acc (to_number (damage e))) l (Num q0)
      = Num q /\ 0 <= q.
Proof.
  induction 1 as [| e l (n & Hn) _ IH]; intros q0 Hq0; cbn [fold_left].
  - now exists q0.
  - rewrite Hn. cbn. apply IH.
    apply (Qplus_le_compat 0 q0 0 (inject_Z (Z.of_N n)) Hq0).
    apply natural_nonneg.
Qed.

(** X22.  What [POST /api/parse-log] answers is consistent: every returned
    event is counted exactly once, as a hit, as a miss or as damage
    received, and neither damage total is NaN. *)
Theorem apiParseLog_consistent
    (newDate : number -> number -> number -> number -> number -> number
               -> Date)
    (body : jsstring) :
  let events := fst (Server.apiParseLog newDate body) in
  let stats := snd (Server.apiParseLog newDate body) in
  List.length events =
    (shotsHit stats + shotsMissed stats
     + count_type damage_received events)%nat
  /\ totalDamageDealt stats <> NaN
  /\ totalDamageReceived stats <> NaN.
Proof.
  cbv zeta. unfold Server.apiParseLog. cbn [fst snd].
  set (events := parseLogContent newDate body).
  assert (Hev : forall e, In e events ->
            (type e = damage_dealt \/ type e = damage_received
             \/ type e = miss)
            /\ (type e = damage_dealt \/ type e = damage_received ->
                exists n, damage e = Some (natural n))).
  { intros e He. unfold events in He.
    rewrite parseLogContent_flat_map in He.
    apply in_flat_map in He as (line & _ & He).
    apply contribution_classified in He as [Hp Ht]. split; [assumption |].
    apply parseCombatLine_Some in Hp as (content & _ & ->).
    apply damage_event_of. }
  unfold calculateStats.
  change (totalDamageDealt (finish ?st)) with (totalDamageDealt st).
  change (totalDamageReceived (finish ?st)) with (totalDamageReceived st).
  change (shotsHit (finish ?st)) with (shotsHit st).
  change (shotsMissed (finish ?st)) with (shotsMissed st).
  rewrite fold_shotsHit, fold_shotsMissed.
  destruct (fold_totals events initial_stats) as [E1 E2]. rewrite E1, E2.
  cbn [shotsHit shotsMissed totalDamageDealt totalDamageReceived
       initial_stats].
  split; [| split].
  - rewrite Nat.add_0_l. apply length_by_type.
    apply Forall_forall. intros e He. now apply Hev.
  - match goal with
    | |- fold_left _ ?l _ <> NaN =>
        destruct (fold_add_natural l) with (q0 := 0) as (q & Eq & _)
    end; [| apply Qle_refl | rewrite Eq; discriminate].
    apply Forall_forall. intros e He. apply filter_In in He as [He Ht].
    apply Hev; [assumption |]. left. now destruct (type e).
  - match goal with
    | |- fold_left _ ?l _ <> NaN =>
        destruct (fold_add_natural l) with (q0 := 0) as (q & Eq & _)
    end; [| apply Qle_refl | rewrite Eq; discriminate].
    apply Forall_forall. intros e He. apply filter_In in He as [He Ht].
    apply Hev; [assumption |]. right. now destruct (type e).
Qed.

(** ** findRecentLogs *)

Lemma firstn_incl {A : Type} (n : nat) (l : list A) (x : A) :
  In x (firstn n l) -> In x l.
Proof.
  revert l. induction n as [| n IH]; intros [| y l]; cbn; try tauto.
  intros [H | H]; auto.
Qed.

Lemma slice0_incl {A : Type} (l : list A) (limit : Z) (x : A) :
  In x (slice0 l limit) -> In x l.
Proof.
  unfold slice0. destruct (limit <? 0)%Z; apply firstn_incl.
Qed.

Lemma slice0_length {A : Type} (l : list A) (limit : Z) :
  (0 <= limit)%Z ->
  List.length (slice0 l limit)
  = Nat.min (Z.to_nat limit) (List.length l).
Proof.
  intros H. unfold slice0. apply Z.ltb_ge in H. rewrite H.
  apply length_firstn.
Qed.

Section RecentLogsFacts.
Variable path_join : jsstring -> jsstring -> jsstring.
Variable sort_by_date : list LogFile -> list LogFile.
Hypothesis sort_rearranges : forall l, Permutation (sort_by_date l) l.

(** X23.  [findRecentLogs] answers the empty list when the directory cannot
    be read.  Otherwise, for a limit that is not negative, it returns at
    most [limit] paths (10 by default), each the join of the directory with
    a listed name that ends in ".txt". *)
Theorem findRecentLogs_sound (logsDir : jsstring) (limit : option Z) :
  findRecentLogs path_join sort_by_date None logsDir limit = []
  /\ forall files,
       let n := match limit with Some n => n | None => 10%Z end in
       let found :=
         findRecentLogs path_join sort_by_date (Some files) logsDir limit in
       (0 <= n)%Z ->
       (List.length found <= Z.to_nat n)%nat
       /\ (List.length found <= List.length files)%nat
       /\ forall p, In p found ->
            exists f, In f files /\ endsWith f (str ".txt") = true
                      /\ p = path_join logsDir f.
Proof.
  split; [reflexivity |]. intros files. cbv zeta. intros Hn.
  unfold findRecentLogs.
  set (txt := filter (fun f => endsWith f (str ".txt")) files).
  set (n := match limit with Some n => n | None => 10%Z end) in *.
  rewrite length_map, slice0_length by assumption.
  rewrite (Permutation_length (sort_rearranges _)), length_map.
  assert (Hl : (List.length txt <= List.length files)%nat)
    by apply filter_length_le.
  split; [lia |]. split; [lia |].
  intros p Hp. apply in_map_iff in Hp as (lf & <- & Hlf).
  apply slice0_incl in Hlf.
  apply (Permutation_in _ (sort_rearranges _)) in Hlf.
  apply in_map_iff in Hlf as (f & <- & Hf).
  apply filter_In in Hf as [Hf Ht].
  exists f. repeat split; assumption.
Qed.

(** X24.  Nothing is lost under a generous limit: when the limit is at
    least the number of listed names ending in ".txt", the result is a
    rearrangement of the paths of all of them. *)
Theorem findRecentLogs_complete (logsDir : jsstring) (files : list jsstring)
    (n : Z) :
  (Z.of_nat (List.length
               (filter (fun f => endsWith f (str ".txt")) files)) <= n)%Z ->
  Permutation
    (findRecentLogs path_join sort_by_date (Some files) logsDir (Some n))
    (map (path_join logsDir)
         (filter (fun f => endsWith f (str ".txt")) files)).
Proof.
  intros Hn. unfold findRecentLogs.
  set (txt := filter (fun f => endsWith f (str ".txt")) files) in *.
  unfold slice0.
  assert (E : (n <? 0)%Z = false) by (apply Z.ltb_ge; lia).
  rewrite E, firstn_all2.
  - rewrite (Permutation_map lf_path (sort_rearranges _)), map_map.
    reflexivity.
  - rewrite (Permutation_length (sort_rearranges _)), length_map. lia.
Qed.

End RecentLogsFacts.

Lemma findRecentLogs_sound_witness :
  (List.length
     (findRecentLogs (@app char) (@rev LogFile)
        (Some [str "20240115_203000_1.txt"; str "notes.md";
               str "20240116_080000_1.txt"])
        (str "logs/") (Some 1%Z)) <= Z.to_nat 1)%nat.
Proof.
  destruct (findRecentLogs_sound (@app char) (@rev LogFile)
              (fun l => Permutation_sym (Permutation_rev l))
              (str "logs/") (Some 1%Z)) as [_ H].
  apply (H [str "20240115_203000_1.txt"; str "notes.md";
            str "20240116_080000_1.txt"]). lia.
Defined.

Lemma findRecentLogs_complete_witness :
  Permutation
    (findRecentLogs (@app char) (@rev LogFile)
       (Some [str "20240115_203000_1.txt"; str "notes.md";
              str "20240116_080000_1.txt"])
       (str "logs/") (Some 10%Z))
    (map (@app char (str "logs/"))
         (filter (fun f => endsWith f (str ".txt"))
                 [str "20240115_203000_1.txt"; str "notes.md";
                  str "20240116_080000_1.txt"])).
Proof.
  apply (findRecentLogs_complete (@app char) (@rev LogFile)
           (fun l => Permutation_sym (Permutation_rev l))).
  vm_compute. discriminate.
Defined.

End LogParserMore.


(* ================================================================== *)
(** * Properties of the calculator handlers *)
(* ================================================================== *)

Module ServerFacts.
Import Calculator64 Calculator64Facts Server.
Import PrimFloat FloatOps FloatAxioms SpecFloat.
Local Open Scope float_scope.

Lemma orDefault_truthy (v d : float) :
  truthy d = true -> truthy (orDefault v d) = true.
Proof.
  intros Hd. unfold orDefault.
  destruct (is_nan v || (v =? 0)) eqn:E; [exact Hd |].
  unfold truthy. now rewrite E.
Qed.

Lemma orDefault_not_nan (v d : float) :
  is_nan d = false -> is_nan (orDefault v d) = false.
Proof.
  intros Hd. unfold orDefault.
  destruct (is_nan v) eqn:E; cbn [orb]; [exact Hd |].
  now destruct (v =? 0).
Qed.

Lemma orDefault_keeps (v d : float) :
  truthy v = true -> orDefault v d = v.
Proof.
  unfold truthy, orDefault. rewrite negb_true_iff. now intros ->.
Qed.

Lemma ltb_leb (x y : float) : (x <? y) = true -> (x <=? y) = true.
Proof.
  rewrite ltb_spec, leb_spec. unfold SFltb, SFleb.
  now destruct (SFcompare (Prim2SF x) (Prim2SF y)) as [[| |] |].
Qed.

Lemma ltb_not_eqb (x y : float) : (x <? y) = true -> (x =? y) = false.
Proof.
  rewrite ltb_spec, FloatAxioms.eqb_spec. unfold SFltb, SFeqb.
  now destruct (SFcompare (Prim2SF x) (Prim2SF y)) as [[| |] |].
Qed.

Lemma negative_truthy (v : float) : (v <? 0) = true -> truthy v = true.
Proof.
  intros H. unfold truthy.
  now rewrite (leb_not_nan_l v 0 (ltb_leb v 0 H)), (ltb_not_eqb v 0 H).
Qed.

Lemma above_one_truthy (v : float) : (1 <? v) = true -> truthy v = true.
Proof.
  intros H. unfold truthy.
  rewrite (leb_not_nan_r 1 v (ltb_leb 1 v H)). cbn [orb].
  rewrite negb_true_iff.
  revert H. rewrite ltb_spec, FloatAxioms.eqb_spec, Prim2SF_zero.
  change (Prim2SF 1) with (S754_finite false 4503599627370496 (-52)).
  unfold SFltb, SFeqb.
  destruct (Prim2SF v) as [s | s | | s m e]; cbn; try destruct s;
    intros H; try discriminate; reflexivity.
Qed.

(** X25.  [POST /api/calculate]: whatever [parseFloat] returns for the six
    fields, no parameter handed to the model is NaN, and the distance, the
    tracking speed, the signature radius, the optimal range and the falloff
    are not zero; with all six fields missing the handler computes with
    its defaults and reports a hit chance of 1. *)
Theorem apiCalculate_params (m : Libm) (t d ts sr o f : float) :
  let p := calculateParams t d ts sr o f in
  is_nan (transversal p) = false
  /\ truthy (distance p) = true
  /\ truthy (trackingSpeed p) = true
  /\ truthy (signatureRadius p) = true
  /\ truthy (optimalRange p) = true
  /\ truthy (falloff p) = true
  /\ hitChance (apiCalculate m nan nan nan nan nan nan) = 1.
Proof.
  cbv zeta. unfold calculateParams.
  cbn [transversal distance trackingSpeed signatureRadius optimalRange
       falloff].
  split; [now apply orDefault_not_nan |].
  repeat (split; [now apply orDefault_truthy |]).
  reflexivity.
Qed.

(** X26.  [POST /api/max-transversal]: the target hit chance handed to the
    model is never NaN or zero, a missing or zero target being replaced
    by 0.5; a negative target and a target above 1 are answered with 0. *)
Theorem apiMaxTransversal_target (m : Libm) (h d ts sr o f : float) :
  truthy (targetHitChance (maxTransversalParams h d ts sr o f)) = true
  /\ apiMaxTransversal m 0 d ts sr o f = apiMaxTransversal m 0.5 d ts sr o f
  /\ apiMaxTransversal m nan d ts sr o f
     = apiMaxTransversal m 0.5 d ts sr o f
  /\ ((h <? 0) || (1 <? h) = true -> apiMaxTransversal m h d ts sr o f = 0).
Proof.
  split; [now apply orDefault_truthy |].
  split; [reflexivity |]. split; [reflexivity |].
  intros H. unfold apiMaxTransversal, maxTransversalParams,
    calculateMaxTransversal.
  cbn [targetHitChance].
  assert (Ht : truthy h = true).
  { apply orb_true_iff in H as [H | H];
      [now apply negative_truthy | now apply above_one_truthy]. }
  rewrite (orDefault_keeps h 0.5 Ht).
  apply orb_true_iff in H as [H | H].
  - now rewrite (ltb_leb h 0 H).
  - rewrite H. now rewrite orb_true_r.
Qed.

Lemma apiMaxTransversal_target_witness :
  apiMaxTransversal libm_sample 1.5 1000 0.05 125 10000 5000 = 0.
Proof.
  apply (apiMaxTransversal_target libm_sample 1.5 1000 0.05 125 10000 5000).
  vm_compute. reflexivity.
Defined.

End ServerFacts.
